(** * DNS_Mgr: the caching, asynchronous DNS resolver manager

    A shallow embedding of [src/DNS_Mgr.h] and of the behaviour its
    specification gives to the member functions the header only declares.

    - What the header defines inline ([SetDir], [CacheFile], [IsAddrReq],
      [AsyncRequestCompare], the member types and their defaults) is
      translated from the header.
    - [std::priority_queue] over a [std::vector] is the binary heap of the
      C++ standard library ([push_back] + [push_heap], [pop_heap] +
      [pop_back], [front]).
    - Member functions whose bodies live in the implementation file are
      modelled from the specification; each such definition says so. *)

From Stdlib Require Import QArith Lqa OrderedTypeEx.
From stdpp Require Import gmap strings list fin_maps sorting.

#[local] Set Warnings "-clear-no-such-hyp".

(* ================================================================== *)
(** * Part I: definitions *)
(* ================================================================== *)

(** ** Basic types *)

(** [enum DNS_MgrMode]. *)
Inductive DNS_MgrMode :=
  | DNS_PRIME     (* used to prime the cache *)
  | DNS_FORCE     (* internal error if cache miss *)
  | DNS_DEFAULT   (* lookup names as they're requested *)
  | DNS_FAKE.     (* don't look up names, just return dummy results *)

(** [IPAddr] is declared in [zeek/IPAddr.h]; an address is taken as the
    128-bit number it stores (IPv4 addresses are mapped into it). *)
Definition IPAddr := N.

(** A [LookupCallback*]: the address of a caller-owned callback object. *)
Definition LookupCallback := nat.

(** An [AsyncRequest*]: the address of a request allocated on the heap. *)
Definition ReqPtr := nat.

(** A [double] holding a timestamp in seconds.  Timestamps are finite, so
    they are rationals and compare as such. *)
Definition timestamp := Q.

Definition Qgt_bool (a b : Q) : bool := negb (Qle_bool a b).

(** ** [struct AsyncRequest] *)

Record AsyncRequest := mkAsyncRequest {
  time : timestamp;
  addr : IPAddr;
  host : string;
  callbacks : list LookupCallback;
  is_txt : bool;
  processed : bool
}.

(** The default member initialisers of the struct. *)
Definition AsyncRequest_default : AsyncRequest :=
  {| time := 0%Q; addr := 0%N; host := ""; callbacks := [];
     is_txt := false; processed := false |}.

(** [bool IsAddrReq() const { return host.empty(); }] *)
Definition IsAddrReq (r : AsyncRequest) : bool :=
  Nat.eqb (String.length (host r)) 0.

(** The kinds of request the three registries of the manager hold. *)
Inductive ReqKind := ADDR | NAME | TEXT.

(** How a request is told apart by the code that dispatches on it:
    [IsAddrReq()] first, then [is_txt]. *)
Definition request_kind (r : AsyncRequest) : ReqKind :=
  if IsAddrReq r then ADDR else if is_txt r then TEXT else NAME.

(** [struct AsyncRequestCompare]:
    [bool operator()(a, b) { return a->time > b->time; }] *)
Definition AsyncRequestCompare (a b : AsyncRequest) : bool :=
  Qgt_bool (time a) (time b).

(** ** [std::priority_queue] over [std::vector]

    The container adaptor keeps its vector a heap with respect to the
    comparator: no element compares below its parent.  [push] appends and
    sifts the new element up, [pop] moves the first element to the back,
    sifts the new first element down and drops the back, [top] is the
    front. *)

Section priority_queue.
Context {A : Type} (comp : A → A → bool).

Definition swap (c : list A) (i j : nat) : list A :=
  match c !! i, c !! j with
  | Some x, Some y => <[i := y]> (<[j := x]> c)
  | _, _ => c
  end.

Definition parent (i : nat) : nat := (i - 1) / 2.

Fixpoint sift_up (fuel i : nat) (c : list A) : list A :=
  match fuel with
  | O => c
  | S fuel' =>
      if Nat.eqb i 0 then c
      else match c !! parent i, c !! i with
           | Some x, Some y =>
               if comp x y then sift_up fuel' (parent i) (swap c (parent i) i)
               else c
           | _, _ => c
           end
  end.

(** [std::push_heap]: the last element is the new one. *)
Definition push_heap (c : list A) : list A :=
  sift_up (length c) (length c - 1) c.

(** The child of [i] to exchange with, if any: the one no other of the
    three compares above. *)
Definition top_child (c : list A) (i : nat) : nat :=
  let l := 2 * i + 1 in
  let r := 2 * i + 2 in
  let b :=
    match c !! i, c !! l with
    | Some x, Some y => if comp x y then l else i
    | _, _ => i
    end in
  match c !! b, c !! r with
  | Some w, Some z => if comp w z then r else b
  | _, _ => b
  end.

Fixpoint sift_down (fuel i : nat) (c : list A) : list A :=
  match fuel with
  | O => c
  | S fuel' =>
      let b := top_child c i in
      if Nat.eqb b i then c else sift_down fuel' b (swap c i b)
  end.

(** [std::pop_heap]: the first element goes to the back, the rest is made
    a heap again. *)
Definition pop_heap (c : list A) : list A :=
  let n := length c in
  let c1 := swap c 0 (n - 1) in
  sift_down (n - 1) 0 (take (n - 1) c1) ++ drop (n - 1) c1.

Definition pop_back (c : list A) : list A := take (length c - 1) c.

Definition pq_push (x : A) (c : list A) : list A := push_heap (c ++ [x]).
Definition pq_pop (c : list A) : list A := pop_back (pop_heap c).
Definition pq_top (c : list A) : option A := head c.

(** [std::is_heap]: no child compares below its parent. *)
Definition is_heap (c : list A) : Prop :=
  ∀ i j x y, j = 2 * i + 1 ∨ j = 2 * i + 2 →
    c !! i = Some x → c !! j = Some y → comp x y = false.

(** [j] is a child of [p] in the heap. *)
Definition child (p j : nat) : Prop := j = 2 * p + 1 ∨ j = 2 * p + 2.

(** Every pair is in order, but possibly the one whose child is [i]; the
    children of [i] are in order with the parent of [i]. *)
Definition heap_but_child (c : list A) (i : nat) : Prop :=
  (∀ p j x y, child p j → j ≠ i →
     c !! p = Some x → c !! j = Some y → comp x y = false) ∧
  (∀ j g y, 0 < i → child i j →
     c !! parent i = Some g → c !! j = Some y → comp g y = false).

(** Every pair is in order, but possibly those whose parent is [i]; the
    children of [i] are in order with the parent of [i]. *)
Definition heap_but_parent (c : list A) (i : nat) : Prop :=
  (∀ p j x y, child p j → p ≠ i →
     c !! p = Some x → c !! j = Some y → comp x y = false) ∧
  (∀ j g y, 0 < i → child i j →
     c !! parent i = Some g → c !! j = Some y → comp g y = false).

End priority_queue.

(** The operations a client can apply to a queue. *)
Inductive pq_op (A : Type) :=
  | OpPush (x : A)
  | OpPop.
Arguments OpPush {A} x.
Arguments OpPop {A}.

Definition pq_apply {A} (comp : A → A → bool) (c : list A) (o : pq_op A) : list A :=
  match o with
  | OpPush x => pq_push comp x c
  | OpPop => pq_pop comp c
  end.

(** The queue reached from the empty one by a sequence of operations. *)
Definition pq_run {A} (comp : A → A → bool) (ops : list (pq_op A)) : list A :=
  foldl (pq_apply comp) [] ops.

(** [using TimeoutQueue = std::priority_queue<AsyncRequest*,
    std::vector<AsyncRequest*>, AsyncRequestCompare>], on the requests the
    pointers designate. *)
Definition TimeoutQueue := list AsyncRequest.

(** ** Mappings and the three caches

    [DNS_Mapping] is only forward-declared in the header. *)

(** Modelled from the spec: the request types of a cache record,
    "req_type ∈ {A, AAAA, PTR, TXT}". *)
Inductive ReqType := T_A | T_AAAA | T_PTR | T_TXT.

(** Modelled from the spec: the "original query key (name or address)" of
    a mapping. *)
Inductive QueryKey :=
  | KeyName (n : string)
  | KeyAddr (a : IPAddr).

(** Modelled from the spec: the "request type tag {ADDR_FORWARD,
    ADDR_REVERSE, TEXT}" of a mapping. *)
Inductive MappingTag := ADDR_FORWARD | ADDR_REVERSE | TAG_TEXT.

(** One element of a payload: an address, or a host name or text. *)
Definition PayloadItem := (IPAddr + string)%type.

(** Modelled from the spec: the class [DNS_Mapping], "creation timestamp;
    original query key (name or address); request type tag; one of
    {address set, hostname string, text string}; TTL in seconds; failure
    flag".  The payload is the set of its elements, empty for a negative
    entry. *)
Record Mapping := mkMapping {
  creation : timestamp;
  req_key : QueryKey;
  req_type : ReqType;
  payload : gset PayloadItem;
  ttl : N;
  is_failed : bool
}.

(** Modelled from the spec: the tag of a mapping, by its key and request
    type, which is also the cache it is kept in. *)
Definition mapping_tag (m : Mapping) : MappingTag :=
  match req_key m with
  | KeyAddr _ => ADDR_REVERSE
  | KeyName _ => match req_type m with T_TXT => TAG_TEXT | _ => ADDR_FORWARD end
  end.

Definition MappingTag_eqb (a b : MappingTag) : bool :=
  match a, b with
  | ADDR_FORWARD, ADDR_FORWARD | ADDR_REVERSE, ADDR_REVERSE
  | TAG_TEXT, TAG_TEXT => true
  | _, _ => false
  end.

Definition ttl_seconds (m : Mapping) : Q := inject_Z (Z.of_N (ttl m)).

(** Modelled from the spec: the TTL policy of [DNS_Mapping],
    "expired(m) = now ≥ m.creation + m.ttl". *)
Definition expired (m : Mapping) (now : timestamp) : bool :=
  Qle_bool (creation m + ttl_seconds m) now.

(** [HostMap], [AddrMap] and [TextMap] with the members [host_mappings],
    [addr_mappings] and [text_mappings]; a null [DNS_Mapping*] is [None]. *)
Record CacheStore := mkCacheStore {
  host_mappings : gmap string (option Mapping * option Mapping);
  addr_mappings : gmap IPAddr Mapping;
  text_mappings : gmap string Mapping
}.

Definition empty_cache : CacheStore :=
  {| host_mappings := ∅; addr_mappings := ∅; text_mappings := ∅ |}.

(** Modelled from the spec: what a cached mapping answers, "returns the
    cached hostname if a non-expired, non-failed mapping exists.  When
    check_failed is true, a failed mapping causes a synthetic [value] to be
    returned rather than null". *)
Definition mapping_answer (m : Mapping) (check_failed : bool) (now : timestamp)
    : option (gset PayloadItem) :=
  if expired m now then None
  else if is_failed m then (if check_failed then Some ∅ else None)
  else Some (payload m).

(** Modelled from the spec: [LookupNameInCache], declared in the header
    with [cleanup_expired = false] and [check_failed = false]; "when
    cleanup_expired is true, expired entries are removed in-line". *)
Definition LookupNameInCache (name : string) (cleanup_expired check_failed : bool)
    (now : timestamp) (c : CacheStore) : option (gset PayloadItem) * CacheStore :=
  match host_mappings c !! name with
  | Some (_, Some m) =>
      if expired m now then
        (None,
         if cleanup_expired then
           {| host_mappings := delete name (host_mappings c);
              addr_mappings := addr_mappings c;
              text_mappings := text_mappings c |}
         else c)
      else (mapping_answer m check_failed now, c)
  | _ => (None, c)
  end.

(** Modelled from the spec: [LookupAddrInCache]. *)
Definition LookupAddrInCache (a : IPAddr) (cleanup_expired check_failed : bool)
    (now : timestamp) (c : CacheStore) : option (gset PayloadItem) * CacheStore :=
  match addr_mappings c !! a with
  | Some m =>
      if expired m now then
        (None,
         if cleanup_expired then
           {| host_mappings := host_mappings c;
              addr_mappings := delete a (addr_mappings c);
              text_mappings := text_mappings c |}
         else c)
      else (mapping_answer m check_failed now, c)
  | None => (None, c)
  end.

(** Modelled from the spec: [LookupTextInCache], which has no
    [check_failed] parameter. *)
Definition LookupTextInCache (name : string) (cleanup_expired : bool)
    (now : timestamp) (c : CacheStore) : option (gset PayloadItem) * CacheStore :=
  match text_mappings c !! name with
  | Some m =>
      if expired m now then
        (None,
         if cleanup_expired then
           {| host_mappings := host_mappings c;
              addr_mappings := addr_mappings c;
              text_mappings := delete name (text_mappings c) |}
         else c)
      else (mapping_answer m false now, c)
  | None => (None, c)
  end.

(** Modelled from the spec: [DNS_Request], forward-declared in the header;
    the key and the type of one query. *)
Record DNS_Request := mkDNS_Request {
  request_key : QueryKey;
  request_type : ReqType
}.

(** Modelled from the spec: the configuration default "negative_ttl:
    default 60 s". *)
Definition negative_ttl : N := 60.

(** Modelled from the spec: the mapping [AddResult] builds from an answer;
    a null [hostent] is a negative answer, "payload empty, failure flag set
    ... its TTL is a fixed short value". *)
Definition new_mapping (dr : DNS_Request) (h : option (gset PayloadItem))
    (ttl_arg : N) (now : timestamp) : Mapping :=
  match h with
  | Some p =>
      {| creation := now; req_key := request_key dr; req_type := request_type dr;
         payload := p; ttl := ttl_arg; is_failed := false |}
  | None =>
      {| creation := now; req_key := request_key dr; req_type := request_type dr;
         payload := ∅; ttl := negative_ttl; is_failed := true |}
  end.

(** Modelled from the spec: the merge of [AddResult], "the union of
    payloads is stored with the smaller TTL". *)
Definition merge_mappings (old new : Mapping) : Mapping :=
  {| creation := creation new; req_key := req_key new; req_type := req_type new;
     payload := payload old ∪ payload new;
     ttl := N.min (ttl old) (ttl new);
     is_failed := is_failed old && is_failed new |}.

(** Modelled from the spec: what [AddResult] puts in the place of a prior
    mapping [old] when [new] arrives. *)
Definition merged_or_new (merge : bool) (old new : Mapping) : Mapping :=
  if merge && MappingTag_eqb (mapping_tag old) (mapping_tag new)
  then merge_mappings old new else new.

(** Modelled from the spec: [AddResult], declared in the header, the
    "ingest" of the cache: "If merge is true and a prior Mapping exists for
    the same key and type, the union of payloads is stored with the smaller
    TTL; otherwise the prior Mapping is displaced.  For HostMap, the
    displaced Mapping becomes previous in the pair." *)
Definition AddResult (dr : DNS_Request) (h : option (gset PayloadItem))
    (ttl_arg : N) (merge : bool) (now : timestamp) (c : CacheStore) : CacheStore :=
  let new := new_mapping dr h ttl_arg now in
  match request_key dr with
  | KeyAddr a =>
      let stored :=
        match addr_mappings c !! a with
        | Some old => merged_or_new merge old new
        | None => new
        end in
      {| host_mappings := host_mappings c;
         addr_mappings := <[a := stored]> (addr_mappings c);
         text_mappings := text_mappings c |}
  | KeyName n =>
      match request_type dr with
      | T_TXT =>
          let stored :=
            match text_mappings c !! n with
            | Some old => merged_or_new merge old new
            | None => new
            end in
          {| host_mappings := host_mappings c;
             addr_mappings := addr_mappings c;
             text_mappings := <[n := stored]> (text_mappings c) |}
      | _ =>
          let slot :=
            match host_mappings c !! n with
            | Some (prev, Some old) =>
                if merge && MappingTag_eqb (mapping_tag old) (mapping_tag new)
                then (prev, Some (merge_mappings old new))
                else (Some old, Some new)
            | Some (prev, None) => (prev, Some new)
            | None => (None, Some new)
            end in
          {| host_mappings := <[n := slot]> (host_mappings c);
             addr_mappings := addr_mappings c;
             text_mappings := text_mappings c |}
      end
  end.

(** The mapping a request finds in its slot of the cache. *)
Definition prior (dr : DNS_Request) (c : CacheStore) : option Mapping :=
  match request_key dr with
  | KeyAddr a => addr_mappings c !! a
  | KeyName n =>
      match request_type dr with
      | T_TXT => text_mappings c !! n
      | _ => host_mappings c !! n ≫= snd
      end
  end.

(** ** The cache file *)

(** Modelled from the spec: the cache file, one record per line.  The
    serialiser of a record belongs to [DNS_Mapping], so a record line is the
    mapping it denotes. *)
Inductive Line :=
  | LComment               (* a line beginning with # *)
  | LBlank
  | LMalformed
  | LRecord (m : Mapping).

Definition CacheFileContents := list Line.

(** "Empty payload is permitted only when failed=1"; "a failed mapping has
    an empty payload". *)
Definition valid_record (m : Mapping) : Prop :=
  payload m = ∅ ↔ is_failed m = true.

(** A valid cache file has no malformed record. *)
Definition valid_line (l : Line) : Prop :=
  match l with
  | LRecord m => valid_record m
  | LMalformed => False
  | LComment | LBlank => True
  end.

Definition valid_file (x : CacheFileContents) : Prop := Forall valid_line x.

Definition records (x : CacheFileContents) : list Mapping :=
  omap (λ l, match l with LRecord m => Some m | _ => None end) x.

(** Modelled from the spec: where a loaded record is stored, the map and
    the key in it. *)
Inductive Slot :=
  | SlotHost (n : string)
  | SlotAddr (a : IPAddr)
  | SlotText (n : string).

Definition slot_of (m : Mapping) : Slot :=
  match req_key m with
  | KeyAddr a => SlotAddr a
  | KeyName n => match req_type m with T_TXT => SlotText n | _ => SlotHost n end
  end.

(** Modelled from the spec: one record of [LoadCache], "duplicate keys on
    load overwrite". *)
Definition install (m : Mapping) (c : CacheStore) : CacheStore :=
  match slot_of m with
  | SlotHost n =>
      {| host_mappings := <[n := (None, Some m)]> (host_mappings c);
         addr_mappings := addr_mappings c;
         text_mappings := text_mappings c |}
  | SlotAddr a =>
      {| host_mappings := host_mappings c;
         addr_mappings := <[a := m]> (addr_mappings c);
         text_mappings := text_mappings c |}
  | SlotText n =>
      {| host_mappings := host_mappings c;
         addr_mappings := addr_mappings c;
         text_mappings := <[n := m]> (text_mappings c) |}
  end.

Definition load_line (c : CacheStore) (l : Line) : CacheStore :=
  match l with
  | LRecord m => install m c
  | _ => c
  end.

(** Modelled from the spec: the body of [LoadCache] once the file is open,
    "reads a snapshot; duplicate keys on load overwrite.  Malformed lines
    are skipped"; "lines beginning with # and blank lines are ignored". *)
Definition load_lines (x : CacheFileContents) (c : CacheStore) : CacheStore :=
  foldl load_line c x.

(** Modelled from the spec: the order of the records of a snapshot,
    "sorted by (req_type, key)". *)
Definition ReqType_rank (t : ReqType) : nat :=
  match t with T_A => 0 | T_AAAA => 1 | T_PTR => 2 | T_TXT => 3 end.

Definition QueryKey_compare (a b : QueryKey) : comparison :=
  match a, b with
  | KeyName x, KeyName y => String.compare x y
  | KeyName _, KeyAddr _ => Lt
  | KeyAddr _, KeyName _ => Gt
  | KeyAddr x, KeyAddr y => N.compare x y
  end.

Definition record_leb (a b : Mapping) : bool :=
  match Nat.compare (ReqType_rank (req_type a)) (ReqType_rank (req_type b)) with
  | Lt => true
  | Gt => false
  | Eq => match QueryKey_compare (req_key a) (req_key b) with
          | Gt => false
          | _ => true
          end
  end.

Definition record_le (a b : Mapping) : Prop := record_leb a b = true.

Global Instance record_le_dec (a b : Mapping) : Decision (record_le a b).
Proof. unfold record_le. apply _. Defined.

Definition sort_records (l : list Mapping) : list Mapping :=
  merge_sort record_le l.

(** Modelled from the spec: what [Save(FILE*, const HostMap&)] writes, the
    current mapping of each [HostMap] slot. *)
Definition host_currents (c : CacheStore) : list Mapping :=
  omap (λ kv, snd (snd kv)) (map_to_list (host_mappings c)).

(** Modelled from the spec: what [Save(FILE*, const AddrMap&)] writes. *)
Definition addr_entries (c : CacheStore) : list Mapping :=
  snd <$> map_to_list (addr_mappings c).

(** Modelled from the spec: the records [Save] writes, "all current entries
    of AddrMap and the current mapping of each HostMap slot". *)
Definition saved (c : CacheStore) : list Mapping :=
  host_currents c ++ addr_entries c.

(** Modelled from the spec: [Save(FILE*, const HostMap&)] and
    [Save(FILE*, const AddrMap&)] as [Save()] calls them, "writes a
    snapshot containing all current entries of AddrMap and the current
    mapping of each HostMap slot"; "records sorted by (req_type, key)". *)
Definition save_lines (c : CacheStore) : CacheFileContents :=
  LRecord <$> sort_records (saved c).

(** "x after sort normalization". *)
Definition normalize (x : CacheFileContents) : CacheFileContents :=
  LRecord <$> sort_records (records x).

(** Nothing is stored yet where a record would go. *)
Definition slot_free (s : Slot) (c : CacheStore) : Prop :=
  match s with
  | SlotHost n => host_mappings c !! n = None
  | SlotAddr a => addr_mappings c !! a = None
  | SlotText n => text_mappings c !! n = None
  end.

(** The record goes to one of the two maps [Save] writes. *)
Definition is_saved_slot (s : Slot) : Prop :=
  match s with SlotText _ => False | _ => True end.

(** A file with one text record. *)
Definition one_text_record : CacheFileContents :=
  [ LRecord {| creation := 10%Q; req_key := KeyName "t.test"; req_type := T_TXT;
               payload := {[ inr "v=1"%string ]}; ttl := 300; is_failed := false |} ].

(** A file with two records for one name. *)
Definition two_records_one_name : CacheFileContents :=
  [ LRecord {| creation := 10%Q; req_key := KeyName "a.test"; req_type := T_A;
               payload := {[ inl 1%N ]}; ttl := 300; is_failed := false |};
    LRecord {| creation := 20%Q; req_key := KeyName "a.test"; req_type := T_A;
               payload := {[ inl 2%N ]}; ttl := 300; is_failed := false |} ].

(** ** The asynchronous registry *)

(** The key of a request in one of the three registries [asyncs_addrs],
    [asyncs_names] and [asyncs_texts]. *)
Inductive ReqKey :=
  | RKAddr (a : IPAddr)
  | RKName (n : string)
  | RKText (n : string).

Global Instance ReqKey_eq_dec : EqDecision ReqKey.
Proof. solve_decision. Defined.

(** The terminal calls of [LookupCallback]: one of the [Resolved] overloads,
    or [Timeout]. *)
Inductive Outcome := Resolved | TimedOut.

(** What the manager does to the outside: the calls it makes on callback
    objects and the queries it hands to the stub-resolver channel, in
    order, together with the attachment of callbacks to requests. *)
Inductive Effect :=
  | Attached (p : ReqPtr) (cb : LookupCallback)
  | Submitted (p : ReqPtr)
  | SyncQuery (dr : DNS_Request)
  | Invoked (p : ReqPtr) (cb : LookupCallback) (o : Outcome)
  | InvokedNow (cb : LookupCallback)
  | FatalMiss.

(** An effect that names no request. *)
Definition silent (e : Effect) : Prop :=
  match e with
  | SyncQuery _ | InvokedNow _ | FatalMiss => True
  | _ => False
  end.

(** The members of [DNS_Mgr] that make up the registry of asynchronous
    requests, with the memory [reqs] in which the [AsyncRequest] objects
    live ([next_req] is the next address [new] returns) and the record
    [trace] of the effects so far.  [asyncs_pending] is an [int]; it stays
    between 0 and the ceiling, so its arithmetic never wraps. *)
Record Registry := mkRegistry {
  reqs : gmap ReqPtr AsyncRequest;
  next_req : ReqPtr;
  asyncs_addrs : gmap IPAddr ReqPtr;
  asyncs_names : gmap string ReqPtr;
  asyncs_texts : gmap string ReqPtr;
  asyncs_queued : list ReqPtr;
  asyncs_timeouts : list ReqPtr;
  asyncs_pending : Z;
  num_requests : N;
  successful : N;
  failed : N;
  trace : list Effect
}.

Definition empty_registry : Registry :=
  {| reqs := ∅; next_req := 0; asyncs_addrs := ∅; asyncs_names := ∅;
     asyncs_texts := ∅; asyncs_queued := []; asyncs_timeouts := [];
     asyncs_pending := 0; num_requests := 0; successful := 0; failed := 0;
     trace := [] |}.

(** [unsigned long] arithmetic. *)
Definition wrap64 (n : N) : N := (n mod 2 ^ 64)%N.

(** Modelled from the spec: the configuration defaults
    "max_async_in_flight: default 20" and "async_timeout: default 5 s". *)
Definition max_async_in_flight : Z := 20.
Definition async_timeout : Q := 5%Q.

Definition set_queued (q : list ReqPtr) (g : Registry) : Registry :=
  {| reqs := reqs g; next_req := next_req g; asyncs_addrs := asyncs_addrs g;
     asyncs_names := asyncs_names g; asyncs_texts := asyncs_texts g;
     asyncs_queued := q; asyncs_timeouts := asyncs_timeouts g;
     asyncs_pending := asyncs_pending g; num_requests := num_requests g;
     successful := successful g; failed := failed g; trace := trace g |}.

Definition add_effect (e : Effect) (g : Registry) : Registry :=
  {| reqs := reqs g; next_req := next_req g; asyncs_addrs := asyncs_addrs g;
     asyncs_names := asyncs_names g; asyncs_texts := asyncs_texts g;
     asyncs_queued := asyncs_queued g; asyncs_timeouts := asyncs_timeouts g;
     asyncs_pending := asyncs_pending g; num_requests := num_requests g;
     successful := successful g; failed := failed g;
     trace := trace g ++ [e] |}.

Definition dedup_lookup (k : ReqKey) (g : Registry) : option ReqPtr :=
  match k with
  | RKAddr a => asyncs_addrs g !! a
  | RKName n => asyncs_names g !! n
  | RKText n => asyncs_texts g !! n
  end.

(** The registry key under which a request is found, by the fields of the
    request. *)
Definition req_key_of (r : AsyncRequest) : ReqKey :=
  match request_kind r with
  | ADDR => RKAddr (addr r)
  | NAME => RKName (host r)
  | TEXT => RKText (host r)
  end.

Definition new_request (k : ReqKey) (cb : LookupCallback) : AsyncRequest :=
  match k with
  | RKAddr a =>
      {| time := 0%Q; addr := a; host := ""; callbacks := [cb];
         is_txt := false; processed := false |}
  | RKName n =>
      {| time := 0%Q; addr := 0%N; host := n; callbacks := [cb];
         is_txt := false; processed := false |}
  | RKText n =>
      {| time := 0%Q; addr := 0%N; host := n; callbacks := [cb];
         is_txt := true; processed := false |}
  end.

Definition add_callback (cb : LookupCallback) (r : AsyncRequest) : AsyncRequest :=
  {| time := time r; addr := addr r; host := host r;
     callbacks := callbacks r ++ [cb];
     is_txt := is_txt r; processed := processed r |}.

Definition set_time (t : timestamp) (r : AsyncRequest) : AsyncRequest :=
  {| time := t; addr := addr r; host := host r; callbacks := callbacks r;
     is_txt := is_txt r; processed := processed r |}.

Definition set_processed (r : AsyncRequest) : AsyncRequest :=
  {| time := time r; addr := addr r; host := host r; callbacks := callbacks r;
     is_txt := is_txt r; processed := true |}.

(** The request a pointer designates in the memory [mem]; the queue holds
    pointers to allocated requests only. *)
Definition deref (mem : gmap ReqPtr AsyncRequest) (a : ReqPtr) : AsyncRequest :=
  default AsyncRequest_default (mem !! a).

(** [AsyncRequestCompare] on two pointers into the memory [mem]. *)
Definition ptr_compare (mem : gmap ReqPtr AsyncRequest) (a b : ReqPtr) : bool :=
  AsyncRequestCompare (deref mem a) (deref mem b).

(** Modelled from the spec: coalescing, "new async lookups whose key is
    already live attach their callback to the existing Request". *)
Definition attach (p : ReqPtr) (cb : LookupCallback) (g : Registry) : Registry :=
  {| reqs := alter (add_callback cb) p (reqs g); next_req := next_req g;
     asyncs_addrs := asyncs_addrs g; asyncs_names := asyncs_names g;
     asyncs_texts := asyncs_texts g; asyncs_queued := asyncs_queued g;
     asyncs_timeouts := asyncs_timeouts g; asyncs_pending := asyncs_pending g;
     num_requests := num_requests g; successful := successful g;
     failed := failed g; trace := trace g ++ [Attached p cb] |}.

(** Modelled from the spec: "otherwise a new Request is created"; it is
    allocated at [next_req] and entered in its registry. *)
Definition create (k : ReqKey) (cb : LookupCallback) (g : Registry) : Registry :=
  let p := next_req g in
  {| reqs := <[p := new_request k cb]> (reqs g); next_req := S p;
     asyncs_addrs :=
       match k with RKAddr a => <[a := p]> (asyncs_addrs g) | _ => asyncs_addrs g end;
     asyncs_names :=
       match k with RKName n => <[n := p]> (asyncs_names g) | _ => asyncs_names g end;
     asyncs_texts :=
       match k with RKText n => <[n := p]> (asyncs_texts g) | _ => asyncs_texts g end;
     asyncs_queued := asyncs_queued g; asyncs_timeouts := asyncs_timeouts g;
     asyncs_pending := asyncs_pending g; num_requests := num_requests g;
     successful := successful g; failed := failed g;
     trace := trace g ++ [Attached p cb] |}.

(** Modelled from the spec: the submit path.  The request is handed to the
    channel: its time is taken, it enters the timeout queue and counts as
    pending. *)
Definition submit (now : timestamp) (p : ReqPtr) (g : Registry) : Registry :=
  match reqs g !! p with
  | None => g
  | Some r =>
      let mem := <[p := set_time now r]> (reqs g) in
      {| reqs := mem; next_req := next_req g;
         asyncs_addrs := asyncs_addrs g; asyncs_names := asyncs_names g;
         asyncs_texts := asyncs_texts g; asyncs_queued := asyncs_queued g;
         asyncs_timeouts := pq_push (ptr_compare mem) p (asyncs_timeouts g);
         asyncs_pending := asyncs_pending g + 1;
         num_requests := wrap64 (num_requests g + 1);
         successful := successful g; failed := failed g;
         trace := trace g ++ [Submitted p] |}
  end.

(** Modelled from the spec: the admission of a new request, "either
    submitted immediately if under the ceiling or placed on the admission
    queue". *)
Definition admission (now : timestamp) (p : ReqPtr) (g : Registry) : Registry :=
  if (asyncs_pending g <? max_async_in_flight)%Z then submit now p g
  else set_queued (asyncs_queued g ++ [p]) g.

(** Modelled from the spec: the miss path of the asynchronous [LookupHost],
    [LookupAddr] and [Lookup], declared in the header: the callback joins
    the live request of the key, or a new request is created and goes
    through admission. *)
Definition register_lookup (k : ReqKey) (cb : LookupCallback) (now : timestamp)
    (g : Registry) : Registry :=
  match dedup_lookup k g with
  | Some p => attach p cb g
  | None => admission now (next_req g) (create k cb g)
  end.

(** Modelled from the spec: the loop of [IssueAsyncRequests] on the queue
    [q] that [g] holds: the front is taken off the queue and submitted. *)
Fixpoint issue (now : timestamp) (q : list ReqPtr) (g : Registry) : Registry :=
  match q with
  | [] => g
  | p :: rest =>
      if (asyncs_pending g <? max_async_in_flight)%Z
      then issue now rest (submit now p (set_queued rest g))
      else g
  end.

(** Modelled from the spec: [IssueAsyncRequests], declared in the header
    ("issue as many queued async requests as slots are available"): the
    front of [asyncs_queued] is submitted while a slot is free. *)
Definition IssueAsyncRequests (now : timestamp) (g : Registry) : Registry :=
  issue now (asyncs_queued g) g.

(** Modelled from the spec: the completion of [CheckAsyncAddrRequest],
    [CheckAsyncHostRequest] and [CheckAsyncTextRequest] and of
    [AsyncRequest::Resolved] and [AsyncRequest::Timeout], declared in the
    header.  The end of a request that is not yet processed: it leaves its
    registry, is marked processed, every callback gets its terminal call
    in the order of registration, and the counters move.  A request that
    is gone or already processed is left alone. *)
Definition finish (p : ReqPtr) (o : Outcome) (ok : bool) (g : Registry) : Registry :=
  match reqs g !! p with
  | None => g
  | Some r =>
      if processed r then g
      else
        let k := req_key_of r in
        {| reqs := <[p := set_processed r]> (reqs g); next_req := next_req g;
           asyncs_addrs :=
             match k with RKAddr a => delete a (asyncs_addrs g) | _ => asyncs_addrs g end;
           asyncs_names :=
             match k with RKName n => delete n (asyncs_names g) | _ => asyncs_names g end;
           asyncs_texts :=
             match k with RKText n => delete n (asyncs_texts g) | _ => asyncs_texts g end;
           asyncs_queued := asyncs_queued g;
           asyncs_timeouts := asyncs_timeouts g;
           asyncs_pending := asyncs_pending g - 1;
           num_requests := num_requests g;
           successful := if ok then wrap64 (successful g + 1) else successful g;
           failed := if ok then failed g else wrap64 (failed g + 1);
           trace := trace g ++ ((λ cb, Invoked p cb o) <$> callbacks r) |}
  end.

(** Modelled from the spec: a request is "destroyed after completion or
    timeout once all callbacks have run"; the top of the timeout queue is
    popped and its request deleted. *)
Definition retire_top (p : ReqPtr) (g : Registry) : Registry :=
  {| reqs := delete p (reqs g); next_req := next_req g;
     asyncs_addrs := asyncs_addrs g; asyncs_names := asyncs_names g;
     asyncs_texts := asyncs_texts g; asyncs_queued := asyncs_queued g;
     asyncs_timeouts := pq_pop (ptr_compare (reqs g)) (asyncs_timeouts g);
     asyncs_pending := asyncs_pending g; num_requests := num_requests g;
     successful := successful g; failed := failed g; trace := trace g |}.

(** Modelled from the spec: the polling of the timeout queue, "for every
    Request whose deadline has passed and which is not yet processed, the
    Driver ... marks it processed with a timeout outcome, and fires
    Timeout() on each callback"; a processed request at the top is
    dropped. *)
Fixpoint expire (fuel : nat) (now : timestamp) (g : Registry) : Registry :=
  match fuel with
  | O => g
  | S fuel' =>
      match pq_top (asyncs_timeouts g) with
      | None => g
      | Some p =>
          match reqs g !! p with
          | None => expire fuel' now (retire_top p g)
          | Some r =>
              if processed r then expire fuel' now (retire_top p g)
              else if Qle_bool (time r + async_timeout) now
              then expire fuel' now (retire_top p (finish p TimedOut false g))
              else g
          end
      end
  end.

(** ** The manager *)

(** The members of [DNS_Mgr] the model needs, with the file system [disk]
    the cache file lives in. *)
Record DNS_Mgr := mkDNS_Mgr {
  mode : DNS_MgrMode;
  cache : CacheStore;
  cache_name : string;
  dir : string;             (* directory in which cache_name resides *)
  did_init : bool;
  reg : Registry;
  disk : gmap string CacheFileContents
}.

(** [explicit DNS_Mgr(DNS_MgrMode mode)] with the default member
    initialisers. *)
Definition DNS_Mgr_new (md : DNS_MgrMode) (fs : gmap string CacheFileContents)
    : DNS_Mgr :=
  {| mode := md; cache := empty_cache; cache_name := ""; dir := "";
     did_init := false; reg := empty_registry; disk := fs |}.

Definition set_reg (g : Registry) (m : DNS_Mgr) : DNS_Mgr :=
  {| mode := mode m; cache := cache m; cache_name := cache_name m;
     dir := dir m; did_init := did_init m; reg := g; disk := disk m |}.

Definition set_cache (c : CacheStore) (m : DNS_Mgr) : DNS_Mgr :=
  {| mode := mode m; cache := c; cache_name := cache_name m;
     dir := dir m; did_init := did_init m; reg := reg m; disk := disk m |}.

(** [void SetDir(const char* arg_dir) { dir = arg_dir; }] *)
Definition SetDir (arg_dir : string) (m : DNS_Mgr) : DNS_Mgr :=
  {| mode := mode m; cache := cache m; cache_name := cache_name m;
     dir := arg_dir; did_init := did_init m; reg := reg m; disk := disk m |}.

(** [std::string CacheFile() const { return cache_name; }] *)
Definition CacheFile (m : DNS_Mgr) : string := cache_name m.






(** Modelled from the spec: the request the channel is asked for a
    registry key (A for a name, PTR for an address, TXT for a text). *)
Definition dr_of_key (k : ReqKey) : DNS_Request :=
  match k with
  | RKAddr a => {| request_key := KeyAddr a; request_type := T_PTR |}
  | RKName n => {| request_key := KeyName n; request_type := T_A |}
  | RKText n => {| request_key := KeyName n; request_type := T_TXT |}
  end.

(** Modelled from the spec: the cache lookup an asynchronous lookup starts
    with, by the kind of its key. *)
Definition cache_lookup (k : ReqKey) (now : timestamp) (c : CacheStore)
    : option (gset PayloadItem) * CacheStore :=
  match k with
  | RKAddr a => LookupAddrInCache a false false now c
  | RKName n => LookupNameInCache n false false now c
  | RKText n => LookupTextInCache n false now c
  end.

(** Modelled from the spec: the asynchronous lookups, declared in the
    header: "immediate cache hit triggers Resolved on the callback before
    returning; miss registers the callback on a new or existing Request";
    in FAKE mode every query is answered at once, in PRIME mode the key is
    recorded as a failed mapping without a query, in FORCE mode a miss is a
    fatal error. *)
Definition async_lookup (k : ReqKey) (cb : LookupCallback) (now : timestamp)
    (m : DNS_Mgr) : DNS_Mgr :=
  match mode m with
  | DNS_FAKE => set_reg (add_effect (InvokedNow cb) (reg m)) m
  | md =>
      match cache_lookup k now (cache m) with
      | (Some _, c) => set_reg (add_effect (InvokedNow cb) (reg m)) (set_cache c m)
      | (None, c) =>
          match md with
          | DNS_PRIME =>
              set_cache (AddResult (dr_of_key k) None 0 false now c) m
          | DNS_FORCE => set_reg (add_effect FatalMiss (reg m)) (set_cache c m)
          | _ => set_reg (register_lookup k cb now (reg m)) (set_cache c m)
          end
      end
  end.

(** [void Lookup(const char* name, int request_type, LookupCallback*
    callback)] for a text request. *)
Definition Lookup_async (name : string) := async_lookup (RKText name).

(** What the channel reports for one query: an answer with its TTL, or a
    failure. *)
Definition Completion := option (gset PayloadItem * N).

(** Modelled from the spec: the completion path of the driver for the
    request the cookie [p] points to; a signal for a request that is gone
    or already processed is discarded.  "After each completion the Driver
    drains the queue." *)
Definition on_complete (p : ReqPtr) (ans : Completion) (now : timestamp)
    (m : DNS_Mgr) : DNS_Mgr :=
  match reqs (reg m) !! p with
  | None => m
  | Some r =>
      if processed r then m
      else
        let dr := dr_of_key (req_key_of r) in
        let c :=
          match ans with
          | Some (pl, t) => AddResult dr (Some pl) t false now (cache m)
          | None => AddResult dr None 0 false now (cache m)
          end in
        set_reg
          (IssueAsyncRequests now
             (finish p Resolved (bool_decide (is_Some ans)) (reg m)))
          (set_cache c m)
  end.

(** Modelled from the spec: [Process], declared in the header: the expired
    timeouts are handled, then the queued requests are issued. *)
Definition Process (now : timestamp) (m : DNS_Mgr) : DNS_Mgr :=
  set_reg
    (IssueAsyncRequests now
       (expire (length (asyncs_timeouts (reg m))) now (reg m))) m.



(** What the channel does with the query of a synchronous lookup. *)
Inductive StubReply :=
  | ReplyAnswer (pl : gset PayloadItem) (t : N)
  | ReplyFailure
  | ReplyNone.            (* no reply before the timeout *)

Inductive SyncResult :=
  | SyncValue (v : gset PayloadItem)
  | SyncFatal.

(** "FAKE mode: every query returns a fixed loopback address". *)
Definition fake_addrs : gset PayloadItem := {[ inl 2130706433%N ]}.

(** Modelled from the spec: the synchronous [LookupHost], declared in the
    header: "consults Cache Store; on miss in DEFAULT, submits a Request
    and blocks ... until completion or timeout; returns empty set on
    failure".  [reply] is what the channel does with the query, if one is
    made. *)
Definition LookupHost (name : string) (reply : StubReply) (now : timestamp)
    (m : DNS_Mgr) : SyncResult * DNS_Mgr :=
  match mode m with
  | DNS_FAKE => (SyncValue fake_addrs, m)
  | md =>
      match LookupNameInCache name false false now (cache m) with
      | (Some v, c) => (SyncValue v, set_cache c m)
      | (None, c) =>
          let dr := {| request_key := KeyName name; request_type := T_A |} in
          match md with
          | DNS_FORCE => (SyncFatal, set_cache c m)
          | DNS_PRIME =>
              (SyncValue ∅, set_cache (AddResult dr None 0 false now c) m)
          | _ =>
              let m1 := set_reg (add_effect (SyncQuery dr) (reg m)) (set_cache c m) in
              match reply with
              | ReplyAnswer pl t =>
                  (SyncValue pl,
                   set_cache (AddResult dr (Some pl) t false now c) m1)
              | ReplyFailure =>
                  (SyncValue ∅, set_cache (AddResult dr None 0 false now c) m1)
              | ReplyNone => (SyncValue ∅, m1)
              end
          end
      end
  end.

(** A registry key is well formed when a name or text key is not empty:
    an empty host marks an address request. *)
Definition key_ok (k : ReqKey) : Prop :=
  match k with
  | RKAddr _ => True
  | RKName n | RKText n => n ≠ ""%string
  end.

(** One step of the manager.  The channel signals a completion only for a
    cookie it was handed. *)
Inductive step : DNS_Mgr → DNS_Mgr → Prop :=
  | step_async k cb now m :
      key_ok k → step m (async_lookup k cb now m)
  | step_complete p ans now m :
      Submitted p ∈ trace (reg m) → step m (on_complete p ans now m)
  | step_process now m :
      step m (Process now m)
  | step_sync name reply now m :
      step m (snd (LookupHost name reply now m))
  | step_frame m m' :
      reg m' = reg m → step m m'.

(** The states the manager can be in. *)
Definition reachable (m : DNS_Mgr) : Prop :=
  ∃ md fs, rtc step (DNS_Mgr_new md fs) m.

(** The requests that are allocated and not processed. *)
Definition live (g : Registry) (p : ReqPtr) (r : AsyncRequest) : Prop :=
  reqs g !! p = Some r ∧ processed r = false.

(** ** What the registry is observed through *)

(** The callbacks attached to the request at [p], in order. *)
Definition attached (p : ReqPtr) (tr : list Effect) : list LookupCallback :=
  omap (λ e, match e with
             | Attached q cb => if decide (q = p) then Some cb else None
             | _ => None
             end) tr.

(** The terminal calls made for the request at [p], in order. *)
Definition invocations (p : ReqPtr) (tr : list Effect)
    : list (LookupCallback * Outcome) :=
  omap (λ e, match e with
             | Invoked q cb o => if decide (q = p) then Some (cb, o) else None
             | _ => None
             end) tr.

(** The requests handed to the channel, in order. *)
Definition submitted (tr : list Effect) : list ReqPtr :=
  omap (λ e, match e with Submitted q => Some q | _ => None end) tr.

(** The addresses of the live requests. *)
Definition live_set (g : Registry) : gset ReqPtr :=
  dom (filter (λ pr, processed pr.2 = false) (reqs g)).

(** The requests in flight: live and handed to the channel. *)
Definition in_flight (g : Registry) : gset ReqPtr :=
  live_set g ∩ list_to_set (submitted (trace g)).

(** What holds of the registry in every state of the manager. *)
Record reg_inv (g : Registry) : Prop := mk_reg_inv {
  inv_fresh : ∀ p r, reqs g !! p = Some r → p < next_req g;
  inv_dedup_live :
    ∀ k p, dedup_lookup k g = Some p → ∃ r, live g p r ∧ req_key_of r = k;
  inv_live_dedup :
    ∀ p r, live g p r → dedup_lookup (req_key_of r) g = Some p;
  inv_queue_nodup : NoDup (asyncs_queued g);
  inv_queue_live :
    ∀ p, p ∈ asyncs_queued g → (∃ r, live g p r) ∧ p ∉ submitted (trace g);
  inv_heap_submitted :
    ∀ p, p ∈ asyncs_timeouts g → p ∈ submitted (trace g);
  inv_trace_fresh :
    ∀ p, next_req g ≤ p →
      attached p (trace g) = [] ∧ invocations p (trace g) = [] ∧
      p ∉ submitted (trace g);
  inv_pending : asyncs_pending g = Z.of_nat (size (in_flight g));
  inv_ceiling : (asyncs_pending g ≤ max_async_in_flight)%Z;
  inv_callbacks_live :
    ∀ p r, live g p r →
      callbacks r = attached p (trace g) ∧ invocations p (trace g) = [];
  inv_callbacks_done :
    ∀ p, p < next_req g → (¬ ∃ r, live g p r) →
      ∃ o, invocations p (trace g) = (λ cb, (cb, o)) <$> attached p (trace g)
}.

(** What holds of the manager in every state: the registry is in order,
    and a request waits in the queue only when no slot is free. *)
Definition mgr_inv (m : DNS_Mgr) : Prop :=
  reg_inv (reg m) ∧
  (asyncs_queued (reg m) ≠ [] →
   (max_async_in_flight ≤ asyncs_pending (reg m))%Z).

(** What holds of the timeout queue in every state of the manager: it is
    a heap for the times of the requests it points to, which are allocated,
    each once, and every request in flight is in it. *)
Record heap_inv (g : Registry) : Prop := mk_heap_inv {
  hi_heap : is_heap (ptr_compare (reqs g)) (asyncs_timeouts g);
  hi_alloc : ∀ p, p ∈ asyncs_timeouts g → is_Some (reqs g !! p);
  hi_nodup : NoDup (asyncs_timeouts g);
  hi_in_flight :
    ∀ p r, live g p r → p ∈ submitted (trace g) → p ∈ asyncs_timeouts g
}.

(** The deadline of the request has not passed. *)
Definition unexpired (now : timestamp) (r : AsyncRequest) : Prop :=
  Qle_bool (time r + async_timeout) now = false.

(** No request in flight is past its deadline. *)
Definition none_expired (now : timestamp) (g : Registry) : Prop :=
  ∀ p r, live g p r → p ∈ submitted (trace g) → unexpired now r.


(** ** More of the header *)

(** Two requests neither of which [AsyncRequestCompare] orders before the
    other. *)
Definition same_deadline (a b : AsyncRequest) : Prop :=
  AsyncRequestCompare a b = false ∧ AsyncRequestCompare b a = false.

(** What a client reads off a queue that it empties with [top()] and
    [pop()], in order. *)
Fixpoint pq_drain {A} (comp : A → A → bool) (fuel : nat) (c : list A) : list A :=
  match fuel with
  | O => []
  | S fuel' =>
      match pq_top c with
      | None => []
      | Some x => x :: pq_drain comp fuel' (pq_pop comp c)
      end
  end.

(** Two comparators agree on the elements of [c]. *)
Definition agree_on {A} (comp comp' : A → A → bool) (c : list A) : Prop :=
  ∀ x y, x ∈ c → y ∈ c → comp' x y = comp x y.

(** [class LookupCallback]: the virtual member functions of a callback
    object whose state is an [S]; [V] stands for the values ([TableValPtr],
    [ValPtr]) a result is handed over in. *)
Record LookupCallbackClass (S V : Type) := mkLookupCallbackClass {
  cb_Resolved_name : string → S → S;     (* Resolved(const char* name) *)
  cb_Resolved_addrs : V → S → S;         (* Resolved(TableValPtr addrs) *)
  cb_Resolved_data : V → Z → S → S;      (* Resolved(ValPtr data, int request_type) *)
  cb_Timeout : S → S                     (* Timeout() *)
}.
Arguments cb_Resolved_name {S V} _ _ _.
Arguments cb_Resolved_addrs {S V} _ _ _.
Arguments cb_Resolved_data {S V} _ _ _ _.
Arguments cb_Timeout {S V} _ _.

(** The base class: the three [Resolved] overloads have empty bodies,
    [Timeout] is pure virtual and comes from the subclass. *)
Definition LookupCallback_base {S V : Type} (timeout : S → S)
    : LookupCallbackClass S V :=
  {| cb_Resolved_name := λ _ s, s;
     cb_Resolved_addrs := λ _ s, s;
     cb_Resolved_data := λ _ _ s, s;
     cb_Timeout := timeout |}.

(** A call of one of the virtual member functions. *)
Inductive CallbackCall (V : Type) :=
  | CallResolvedName (name : string)
  | CallResolvedAddrs (addrs : V)
  | CallResolvedData (data : V) (request_type : Z)
  | CallTimeout.
Arguments CallResolvedName {V} name.
Arguments CallResolvedAddrs {V} addrs.
Arguments CallResolvedData {V} data request_type.
Arguments CallTimeout {V}.

Definition is_timeout_call {V} (c : CallbackCall V) : bool :=
  match c with CallTimeout => true | _ => false end.

(** The virtual dispatch of one call on a callback object. *)
Definition deliver {S V} (cb : LookupCallbackClass S V) (s : S)
    (c : CallbackCall V) : S :=
  match c with
  | CallResolvedName name => cb_Resolved_name cb name s
  | CallResolvedAddrs addrs => cb_Resolved_addrs cb addrs s
  | CallResolvedData data rt => cb_Resolved_data cb data rt s
  | CallTimeout => cb_Timeout cb s
  end.

(* ================================================================== *)
(** * Part II: theorems *)
(* ================================================================== *)

(** ** Requests *)

Lemma string_length_0 (s : string) : String.length s = 0 ↔ s = ""%string.
Proof. destruct s; simpl; split; congruence. Qed.

Lemma IsAddrReq_spec (r : AsyncRequest) : IsAddrReq r = true ↔ host r = ""%string.
Proof. unfold IsAddrReq. rewrite Nat.eqb_eq. apply string_length_0. Qed.

(** ** The binary heap behind [std::priority_queue] *)

Lemma parent_cases (i : nat) :
  0 < i → i = 2 * parent i + 1 ∨ i = 2 * parent i + 2.
Proof.
  intros Hi. unfold parent.
  pose proof (Nat.div_mod_eq (i - 1) 2) as E.
  pose proof (Nat.mod_upper_bound (i - 1) 2 ltac:(lia)) as B.
  lia.
Qed.

Lemma parent_of_child (p j : nat) :
  j = 2 * p + 1 ∨ j = 2 * p + 2 → parent j = p.
Proof.
  intros H. assert (0 < j) as Hj by lia.
  pose proof (parent_cases j Hj). lia.
Qed.

Section swap_facts.
Context {A : Type}.
Implicit Types c : list A.

Lemma swap_length c i j : length (swap c i j) = length c.
Proof.
  unfold swap. destruct (c !! i), (c !! j); trivial.
  by rewrite !length_insert.
Qed.

Lemma swap_lookup c i j k x y :
  c !! i = Some x → c !! j = Some y →
  swap c i j !! k =
    if decide (k = i) then Some y else if decide (k = j) then Some x else c !! k.
Proof.
  intros Hi Hj. unfold swap. rewrite Hi, Hj.
  apply lookup_lt_Some in Hi as Li. apply lookup_lt_Some in Hj as Lj.
  destruct (decide (k = i)) as [->|Hki].
  - rewrite list_lookup_insert_eq; [done|by rewrite length_insert].
  - rewrite list_lookup_insert_ne by done.
    destruct (decide (k = j)) as [->|Hkj].
    + by rewrite list_lookup_insert_eq.
    + by rewrite list_lookup_insert_ne.
Qed.

Lemma insert_head_Permutation c j x y :
  c !! j = Some y → y :: <[j := x]> c ≡ₚ x :: c.
Proof.
  revert j. induction c as [|a c IH]; intros [|j] Hj; simplify_eq/=.
  - apply perm_swap.
  - rewrite (perm_swap a y), (IH _ Hj). apply perm_swap.
Qed.

Lemma swap_Permutation c i j : swap c i j ≡ₚ c.
Proof.
  unfold swap.
  destruct (c !! i) as [x|] eqn:Hi; [|done].
  destruct (c !! j) as [y|] eqn:Hj; [|done].
  revert i j Hi Hj. induction c as [|a c IH]; intros [|i] [|j] Hi Hj; simplify_eq/=.
  - done.
  - by apply insert_head_Permutation.
  - by apply insert_head_Permutation.
  - by rewrite IH.
Qed.

End swap_facts.

Section heap_facts.
Context {A : Type} (comp : A → A → bool).
Hypothesis comp_trans :
  ∀ x y z, comp x y = false → comp y z = false → comp x z = false.
Hypothesis comp_asym : ∀ x y, comp x y = true → comp y x = false.
Implicit Types c : list A.

Lemma comp_irrefl x : comp x x = false.
Proof.
  destruct (comp x x) eqn:E; [|done].
  pose proof (comp_asym _ _ E). congruence.
Qed.

Lemma sift_up_is_heap (fuel i : nat) c :
  i ≤ fuel → i < length c → heap_but_child comp c i →
  is_heap comp (sift_up comp fuel i c).
Proof.
  revert i c. induction fuel as [|fuel IH]; intros i c Hfuel Hlen [Hout Hgr].
  { simpl. intros p j x y Hc. apply Hout; [done|unfold child in Hc; lia]. }
  simpl. destruct (Nat.eqb_spec i 0) as [->|Hi0].
  { intros p j x y Hc. apply Hout; [done|unfold child in Hc; lia]. }
  assert (0 < i) as Hi by lia.
  pose proof (parent_cases i Hi) as Hpc.
  destruct (lookup_lt_is_Some_2 c (parent i) ltac:(lia)) as [x Hx].
  destruct (lookup_lt_is_Some_2 c i Hlen) as [y Hy].
  rewrite Hx, Hy. destruct (comp x y) eqn:Hxy.
  - apply IH; [lia|rewrite swap_length; lia|].
    assert (comp y x = false) as Hyx by by apply comp_asym.
    split.
    + intros p j u v Hc Hj Hu Hv.
      pose proof (parent_of_child _ _ Hc) as Hpj.
      rewrite (swap_lookup c _ _ _ x y Hx Hy) in Hu.
      rewrite (swap_lookup c _ _ _ x y Hx Hy) in Hv.
      rewrite decide_False in Hv by done.
      destruct (decide (j = i)) as [->|Hji].
      * rewrite decide_True in Hu by done. by simplify_eq.
      * destruct (decide (p = parent i)) as [->|Hp1].
        -- simplify_eq. eapply comp_trans; [exact Hyx|]. eapply Hout; eauto.
        -- destruct (decide (p = i)) as [->|Hp2].
           ++ simplify_eq. eapply Hgr; eauto.
           ++ eapply Hout; eauto.
    + intros j g v Hq Hc Hg Hv.
      pose proof (parent_cases _ Hq) as Hqc.
      pose proof (parent_of_child _ _ Hc) as Hpj.
      rewrite (swap_lookup c _ _ _ x y Hx Hy) in Hg.
      rewrite (swap_lookup c _ _ _ x y Hx Hy) in Hv.
      rewrite decide_False in Hg by lia. rewrite decide_False in Hg by lia.
      rewrite decide_False in Hv by (unfold child in Hc; lia).
      assert (comp g x = false) as Hgx.
      { eapply Hout; [exact Hqc|lia|exact Hg|exact Hx]. }
      destruct (decide (j = i)) as [->|Hji]; [by simplify_eq|].
      eapply comp_trans; [exact Hgx|].
      exact (Hout (parent i) j x v Hc Hji Hx Hv).
  - intros p j u v Hc Hu Hv. destruct (decide (j = i)) as [->|Hj].
    + rewrite (parent_of_child _ _ Hc) in Hx. by simplify_eq.
    + eapply Hout; eauto.
Qed.

Lemma top_child_None c (i : nat) : c !! i = None → top_child comp c i = i.
Proof. intros Hi. unfold top_child. rewrite Hi. simpl. by rewrite Hi. Qed.

Lemma top_child_spec c (i : nat) x :
  c !! i = Some x →
  (top_child comp c i = i ∨ child i (top_child comp c i)) ∧
  ∃ w, c !! top_child comp c i = Some w ∧ comp w x = false ∧
       ∀ j y, child i j → c !! j = Some y → comp w y = false.
Proof.
  intros Hx. unfold top_child. rewrite Hx.
  assert (∀ j y, child i j → c !! (2 * i + 1) = None →
            c !! j = Some y → False) as Hnone.
  { intros j y [->| ->] Hl Hj; [congruence|].
    apply lookup_ge_None in Hl. apply lookup_lt_Some in Hj. lia. }
  destruct (c !! (2 * i + 1)) as [y|] eqn:Hl.
  - destruct (comp x y) eqn:Hxy.
    + rewrite Hl. pose proof (comp_asym _ _ Hxy) as Hyx.
      destruct (c !! (2 * i + 2)) as [z|] eqn:Hr.
      * destruct (comp y z) eqn:Hyz.
        -- pose proof (comp_asym _ _ Hyz) as Hzy.
           split; [right; by right|]. exists z. split; [done|].
           split; [by eapply comp_trans|].
           intros j v [->| ->] Hv; simplify_eq; [done|apply comp_irrefl].
        -- split; [right; by left|]. exists y. split; [done|]. split; [done|].
           intros j v [->| ->] Hv; simplify_eq; [apply comp_irrefl|done].
      * split; [right; by left|]. exists y. split; [done|]. split; [done|].
        intros j v [->| ->] Hv; simplify_eq. apply comp_irrefl.
    + rewrite Hx. destruct (c !! (2 * i + 2)) as [z|] eqn:Hr.
      * destruct (comp x z) eqn:Hxz.
        -- pose proof (comp_asym _ _ Hxz) as Hzx.
           split; [right; by right|]. exists z. split; [done|]. split; [done|].
           intros j v [->| ->] Hv; simplify_eq; [by eapply comp_trans|apply comp_irrefl].
        -- split; [by left|]. exists x. split; [done|].
           split; [apply comp_irrefl|].
           intros j v [->| ->] Hv; by simplify_eq.
      * split; [by left|]. exists x. split; [done|].
        split; [apply comp_irrefl|].
        intros j v [->| ->] Hv; by simplify_eq.
  - rewrite Hx.
    assert (c !! (2 * i + 2) = None) as ->.
    { apply lookup_ge_None in Hl. apply lookup_ge_None. lia. }
    split; [by left|]. exists x. split; [done|]. split; [apply comp_irrefl|].
    intros j v Hc Hv. destruct (Hnone j v Hc eq_refl Hv).
Qed.

Lemma sift_down_is_heap (fuel i : nat) c :
  length c - i ≤ fuel → heap_but_parent comp c i →
  is_heap comp (sift_down comp fuel i c).
Proof.
  revert i c. induction fuel as [|fuel IH]; intros i c Hfuel [Hout Hgr].
  { simpl. intros p j x y Hc Hx Hy. eapply Hout; eauto.
    intros ->. apply lookup_lt_Some in Hx. lia. }
  simpl. destruct (c !! i) as [x|] eqn:Hx.
  2:{ rewrite top_child_None, Nat.eqb_refl by done.
      intros p j u v Hc Hu Hv. eapply Hout; eauto. congruence. }
  destruct (top_child_spec c i x Hx) as (Hb & w & Hw & Hwx & Hwc).
  destruct (Nat.eqb_spec (top_child comp c i) i) as [Heq|Hne].
  { rewrite Heq in Hw. simplify_eq.
    intros p j u v Hc Hu Hv. destruct (decide (p = i)) as [->|Hp].
    - simplify_eq. by eapply Hwc.
    - eapply Hout; eauto. }
  destruct Hb as [Hb|Hb]; [done|].
  set (b := top_child comp c i) in *.
  pose proof (parent_of_child _ _ Hb) as Hpb.
  assert (i < b) as Hib by (unfold child in Hb; lia).
  apply lookup_lt_Some in Hw as Hbl.
  apply IH; [rewrite swap_length; lia|]. split.
  - intros p j u v Hc Hp Hu Hv.
    pose proof (parent_of_child _ _ Hc) as Hpj.
    rewrite (swap_lookup c _ _ _ x w Hx Hw) in Hu.
    rewrite (swap_lookup c _ _ _ x w Hx Hw) in Hv.
    rewrite (decide_False (P := p = b)) in Hu by done.
    destruct (decide (p = i)) as [->|Hpi].
    + simplify_eq. rewrite decide_False in Hv by (unfold child in Hc; lia).
      destruct (decide (j = b)) as [->|Hjb]; [by simplify_eq|].
      by eapply Hwc.
    + destruct (decide (j = i)) as [->|Hji].
      * simplify_eq. assert (0 < i) as Hi0 by (unfold child in Hc; lia).
        exact (Hgr b u v Hi0 Hb Hu Hw).
      * destruct (decide (j = b)) as [->|Hjb]; [congruence|].
        eapply Hout; eauto.
  - intros j g v _ Hc Hg Hv.
    rewrite Hpb in Hg.
    rewrite (swap_lookup c _ _ _ x w Hx Hw) in Hg.
    rewrite (swap_lookup c _ _ _ x w Hx Hw) in Hv.
    rewrite decide_True in Hg by done.
    rewrite decide_False in Hv by (unfold child in Hc; lia).
    rewrite decide_False in Hv by (unfold child in Hc; lia).
    simplify_eq. exact (Hout b j g v Hc ltac:(lia) Hw Hv).
Qed.

Lemma sift_up_length (fuel i : nat) c : length (sift_up comp fuel i c) = length c.
Proof.
  revert i c. induction fuel as [|fuel IH]; intros i c; simpl; [done|].
  destruct (Nat.eqb i 0); [done|].
  destruct (c !! parent i), (c !! i); try done.
  destruct (comp _ _); [|done]. by rewrite IH, swap_length.
Qed.

Lemma sift_down_length (fuel i : nat) c :
  length (sift_down comp fuel i c) = length c.
Proof.
  revert i c. induction fuel as [|fuel IH]; intros i c; simpl; [done|].
  destruct (Nat.eqb _ i); [done|]. by rewrite IH, swap_length.
Qed.

Lemma sift_up_Permutation (fuel i : nat) c : sift_up comp fuel i c ≡ₚ c.
Proof.
  revert i c. induction fuel as [|fuel IH]; intros i c; simpl; [done|].
  destruct (Nat.eqb i 0); [done|].
  destruct (c !! parent i), (c !! i); try done.
  destruct (comp _ _); [|done]. by rewrite IH, swap_Permutation.
Qed.

Lemma sift_down_Permutation (fuel i : nat) c : sift_down comp fuel i c ≡ₚ c.
Proof.
  revert i c. induction fuel as [|fuel IH]; intros i c; simpl; [done|].
  destruct (Nat.eqb _ i); [done|]. by rewrite IH, swap_Permutation.
Qed.

Lemma pq_push_Permutation x c : pq_push comp x c ≡ₚ x :: c.
Proof.
  unfold pq_push, push_heap. rewrite sift_up_Permutation.
  by rewrite Permutation_app_comm.
Qed.

Lemma pq_pop_eq c :
  pq_pop comp c =
  sift_down comp (length c - 1) 0 (take (length c - 1) (swap c 0 (length c - 1))).
Proof.
  unfold pq_pop, pop_back, pop_heap.
  set (n := length c). set (c1 := swap c 0 (n - 1)).
  assert (length c1 = n) as Hc1 by apply swap_length.
  assert (length (take (n - 1) c1) = n - 1) as Ht by (rewrite length_take; lia).
  rewrite length_app, sift_down_length, Ht, length_drop, Hc1.
  replace (n - 1 + (n - (n - 1)) - 1) with (n - 1) by lia.
  rewrite take_app_le by (rewrite sift_down_length; lia).
  apply take_ge. rewrite sift_down_length. lia.
Qed.

Lemma pq_pop_Permutation t c : pq_top c = Some t → t :: pq_pop comp c ≡ₚ c.
Proof.
  intros Ht. rewrite pq_pop_eq, sift_down_Permutation.
  unfold pq_top in Ht. rewrite head_lookup in Ht.
  apply lookup_lt_Some in Ht as Hlen.
  set (n := length c) in *.
  destruct (lookup_lt_is_Some_2 c (n - 1) ltac:(lia)) as [z Hz].
  pose proof (swap_lookup c 0 (n - 1) (n - 1) t z Ht Hz) as Hlast.
  assert (swap c 0 (n - 1) !! (n - 1) = Some t) as Hlast'.
  { rewrite Hlast. repeat case_decide; congruence. }
  transitivity (swap c 0 (n - 1)); [|apply swap_Permutation].
  rewrite <-(take_drop (n - 1) (swap c 0 (n - 1))) at 2.
  rewrite (drop_S _ _ _ Hlast'), drop_ge by (rewrite swap_length; lia).
  by rewrite Permutation_app_comm.
Qed.

Lemma is_heap_nil : is_heap comp [].
Proof. intros i j x y _ Hx. by rewrite lookup_nil in Hx. Qed.

Lemma pq_push_is_heap x c : is_heap comp c → is_heap comp (pq_push comp x c).
Proof.
  intros Hc. unfold pq_push, push_heap.
  rewrite length_app. simpl.
  apply sift_up_is_heap; [lia|rewrite length_app; simpl; lia|].
  replace (length c + 1 - 1) with (length c) by lia. split.
  - intros p j u v Hpj Hj Hu Hv.
    apply lookup_lt_Some in Hv as Hjl. rewrite length_app in Hjl. simpl in Hjl.
    rewrite lookup_app_l in Hu by (unfold child in Hpj; lia).
    rewrite lookup_app_l in Hv by lia.
    by eapply Hc.
  - intros j g v _ Hpj _ Hv.
    apply lookup_lt_Some in Hv. rewrite length_app in Hv. simpl in Hv.
    unfold child in Hpj. lia.
Qed.

Lemma pq_pop_is_heap c : is_heap comp c → is_heap comp (pq_pop comp c).
Proof.
  intros Hc. rewrite pq_pop_eq.
  apply sift_down_is_heap; [rewrite length_take; lia|].
  split; [|intros; lia].
  intros p j u v Hpj Hp Hu Hv.
  apply lookup_lt_Some in Hv as Hjl. rewrite length_take, swap_length in Hjl.
  set (n := length c) in *.
  destruct (lookup_lt_is_Some_2 c 0 ltac:(lia)) as [t Ht].
  destruct (lookup_lt_is_Some_2 c (n - 1) ltac:(lia)) as [z Hz].
  rewrite lookup_take_lt in Hu by (unfold child in Hpj; lia).
  rewrite lookup_take_lt in Hv by lia.
  rewrite (swap_lookup c _ _ _ t z Ht Hz) in Hu.
  rewrite (swap_lookup c _ _ _ t z Ht Hz) in Hv.
  rewrite decide_False in Hu by done.
  rewrite decide_False in Hu by (unfold child in Hpj; lia).
  rewrite decide_False in Hv by (unfold child in Hpj; lia).
  rewrite decide_False in Hv by lia.
  by eapply Hc.
Qed.

Lemma is_heap_top_min c t :
  is_heap comp c → pq_top c = Some t →
  ∀ (j : nat) y, c !! j = Some y → comp t y = false.
Proof.
  intros Hc Ht j. induction (lt_wf j) as [j _ IH]. intros y Hy.
  assert (c !! 0 = Some t) as H0 by (by destruct c; simplify_eq/=).
  destruct (decide (j = 0)) as [->|Hj].
  { simplify_eq. apply comp_irrefl. }
  pose proof (parent_cases j ltac:(lia)) as Hpj.
  apply lookup_lt_Some in Hy as Hjl.
  destruct (lookup_lt_is_Some_2 c (parent j) ltac:(lia)) as [x Hx].
  eapply comp_trans; [apply (IH (parent j)); [lia|exact Hx]|].
  exact (Hc (parent j) j x y Hpj Hx Hy).
Qed.

Lemma pq_apply_is_heap c o : is_heap comp c → is_heap comp (pq_apply comp c o).
Proof. destruct o; [apply pq_push_is_heap|apply pq_pop_is_heap]. Qed.

Lemma pq_run_is_heap ops : is_heap comp (pq_run comp ops).
Proof.
  unfold pq_run. generalize is_heap_nil. generalize (@nil A).
  induction ops as [|o ops IH]; intros c Hc; simpl; [done|].
  by apply IH, pq_apply_is_heap.
Qed.

End heap_facts.

(** ** The timeout queue *)

Lemma AsyncRequestCompare_false (a b : AsyncRequest) :
  AsyncRequestCompare a b = false ↔ (time a <= time b)%Q.
Proof.
  unfold AsyncRequestCompare, Qgt_bool.
  rewrite negb_false_iff. apply Qle_bool_iff.
Qed.

Lemma AsyncRequestCompare_trans (x y z : AsyncRequest) :
  AsyncRequestCompare x y = false → AsyncRequestCompare y z = false →
  AsyncRequestCompare x z = false.
Proof. rewrite !AsyncRequestCompare_false. apply Qle_trans. Qed.

Lemma AsyncRequestCompare_asym (x y : AsyncRequest) :
  AsyncRequestCompare x y = true → AsyncRequestCompare y x = false.
Proof.
  intros H. apply AsyncRequestCompare_false.
  destruct (Qlt_le_dec (time y) (time x)) as [Hlt|Hle]; [by apply Qlt_le_weak|].
  apply AsyncRequestCompare_false in Hle. congruence.
Qed.

(** C8: whatever pushes and pops built the timeout queue, the request at
    its top (the one a pop removes) has a time that is at most the time of
    every request in the queue, so of every request left after the pop;
    the pop removes that request and nothing else. *)
Theorem timeout_queue_pop_min (ops : list (pq_op AsyncRequest)) (r : AsyncRequest) :
  let q : TimeoutQueue := pq_run AsyncRequestCompare ops in
  pq_top q = Some r →
  (∀ r', r' ∈ q → (time r <= time r')%Q) ∧
  (∀ r', r' ∈ pq_pop AsyncRequestCompare q → (time r <= time r')%Q) ∧
  r :: pq_pop AsyncRequestCompare q ≡ₚ q.
Proof.
  intros q Htop.
  assert (∀ r', r' ∈ q → (time r <= time r')%Q) as Hmin.
  { intros r' Hin. apply list_elem_of_lookup in Hin as [j Hj].
    apply AsyncRequestCompare_false.
    eapply (is_heap_top_min AsyncRequestCompare); eauto using
      AsyncRequestCompare_trans, AsyncRequestCompare_asym.
    apply pq_run_is_heap; eauto using
      AsyncRequestCompare_trans, AsyncRequestCompare_asym. }
  pose proof (pq_pop_Permutation AsyncRequestCompare r q Htop) as Hperm.
  split; [done|]. split; [|done].
  intros r' Hin. apply Hmin. rewrite <-Hperm. by right.
Qed.

Lemma timeout_queue_pop_min_witness :
  let r (t : Q) := set_time t AsyncRequest_default in
  let ops := [OpPush (r 5%Q); OpPush (r 3%Q); OpPush (r 7%Q); OpPop;
              OpPush (r 4%Q); OpPush (r 9%Q)] in
  let q := pq_run AsyncRequestCompare ops in
  pq_top q = Some (r 4%Q) ∧
  ((∀ r', r' ∈ q → (4 <= time r')%Q) ∧
   (∀ r', r' ∈ pq_pop AsyncRequestCompare q → (4 <= time r')%Q) ∧
   r 4%Q :: pq_pop AsyncRequestCompare q ≡ₚ q).
Proof.
  intros r ops q. split; [reflexivity|].
  apply (timeout_queue_pop_min ops (r 4%Q)). reflexivity.
Defined.

(** ** Requests and their kind *)

(** C10: a request is an address request exactly when its host string is
    empty; a name request and a text request both have a non-empty host
    and differ in [is_txt] only. *)
Theorem IsAddrReq_iff_host_empty (r : AsyncRequest) :
  (IsAddrReq r = true ↔ host r = ""%string) ∧
  (request_kind r = ADDR ↔ host r = ""%string) ∧
  (request_kind r = NAME ↔ host r ≠ ""%string ∧ is_txt r = false) ∧
  (request_kind r = TEXT ↔ host r ≠ ""%string ∧ is_txt r = true).
Proof.
  pose proof (IsAddrReq_spec r) as H.
  unfold request_kind.
  destruct (IsAddrReq r) eqn:E, (is_txt r) eqn:T;
    repeat split; try done; try tauto; try (intros [? ?]; done);
    try (intros ?; exfalso; intuition congruence);
    try (intros [? ?]; exfalso; intuition congruence);
    try (intros _; split; [|done]; intros ?; intuition congruence).
Qed.

(** ** The cache file path *)

(** [SetDir] by itself leaves the path as it is: the path is fixed when the
    manager is initialised. *)
Lemma CacheFile_SetDir (d : string) (m : DNS_Mgr) :
  CacheFile (SetDir d m) = CacheFile m.
Proof. reflexivity. Qed.



(** ** Ingesting an answer *)

Lemma MappingTag_eqb_eq (a b : MappingTag) : MappingTag_eqb a b = true ↔ a = b.
Proof. destruct a, b; simpl; split; congruence. Qed.

Lemma payload_merge_mappings (old new : Mapping) :
  payload (merge_mappings old new) = payload old ∪ payload new ∧
  ttl (merge_mappings old new) = N.min (ttl old) (ttl new).
Proof. done. Qed.

(** C6: when a mapping [old] is in the slot of the request and has the
    type of the new one, [AddResult] with [merge] stores the union of the
    payloads with the smaller TTL; without [merge] the new mapping takes
    the place of [old], and in a [HostMap] slot [old] becomes the previous
    element of the pair. *)
Theorem AddResult_merge_or_displace (dr : DNS_Request)
    (h : option (gset PayloadItem)) (t : N) (now : timestamp)
    (c : CacheStore) (old : Mapping) :
  prior dr c = Some old →
  mapping_tag old = mapping_tag (new_mapping dr h t now) →
  let new := new_mapping dr h t now in
  (∃ stored, prior dr (AddResult dr h t true now c) = Some stored ∧
     payload stored = payload old ∪ payload new ∧
     ttl stored = N.min (ttl old) (ttl new)) ∧
  prior dr (AddResult dr h t false now c) = Some new ∧
  (∀ n, request_key dr = KeyName n → request_type dr ≠ T_TXT →
     host_mappings (AddResult dr h t false now c) !! n = Some (Some old, Some new)).
Proof.
  intros Hprior Htag new.
  apply MappingTag_eqb_eq in Htag.
  unfold prior, AddResult, merged_or_new in *. fold new. fold new in Htag.
  destruct (request_key dr) as [n|a] eqn:Hk.
  - destruct (request_type dr) eqn:Ht; simpl.
    4:{ rewrite Hprior, Htag. simpl.
        split; [eexists; split; [apply lookup_insert_eq|done]|].
        split; [apply lookup_insert_eq|]. by intros. }
    all: destruct (host_mappings c !! n) as [[prev [old'|]]|] eqn:Hh;
      simplify_eq/=; rewrite Htag; simpl;
      (split; [eexists; split; [by rewrite lookup_insert_eq|done]|]);
      (split; [by rewrite lookup_insert_eq|]);
      intros n' ? _; simplify_eq; by rewrite lookup_insert_eq.
  - simpl. rewrite Hprior, Htag. simpl.
    split; [eexists; split; [apply lookup_insert_eq|done]|].
    split; [apply lookup_insert_eq|]. by intros.
Qed.

Lemma AddResult_merge_or_displace_witness :
  let dr := {| request_key := KeyName "a.test"; request_type := T_A |} in
  let old := new_mapping dr (Some {[ inl 1%N ]}) 300 0%Q in
  let c := AddResult dr (Some {[ inl 1%N ]}) 300 false 0%Q empty_cache in
  let new := new_mapping dr (Some {[ inl 2%N ]}) 100 7%Q in
  prior dr c = Some old ∧
  mapping_tag old = mapping_tag new ∧
  ((∃ stored, prior dr (AddResult dr (Some {[ inl 2%N ]}) 100 true 7%Q c) = Some stored ∧
      payload stored = payload old ∪ payload new ∧
      ttl stored = N.min (ttl old) (ttl new)) ∧
   prior dr (AddResult dr (Some {[ inl 2%N ]}) 100 false 7%Q c) = Some new ∧
   (∀ n, request_key dr = KeyName n → request_type dr ≠ T_TXT →
      host_mappings (AddResult dr (Some {[ inl 2%N ]}) 100 false 7%Q c) !! n
      = Some (Some old, Some new))).
Proof.
  intros dr old c new.
  assert (prior dr c = Some old) as Hp.
  { unfold prior, c, AddResult. simpl. by rewrite lookup_insert_eq. }
  split; [exact Hp|]. split; [reflexivity|].
  apply (AddResult_merge_or_displace dr (Some {[ inl 2%N ]}) 100 7%Q c old Hp).
  reflexivity.
Defined.

(** ** Synchronous lookups and the TTL *)




(** The first resolution of a name puts such a mapping in the cache. *)
Lemma LookupHost_first_resolution (name : string) (m : DNS_Mgr)
    (pl : gset PayloadItem) (t : N) (now : timestamp) :
  mode m = DNS_DEFAULT →
  fst (LookupNameInCache name false false now (cache m)) = None →
  ∃ prev mp,
    host_mappings (cache (snd (LookupHost name (ReplyAnswer pl t) now m))) !! name
      = Some (prev, Some mp) ∧
    is_failed mp = false ∧ payload mp = pl ∧ creation mp = now ∧ ttl mp = t ∧
    mode (snd (LookupHost name (ReplyAnswer pl t) now m)) = DNS_DEFAULT.
Proof.
  intros Hmode Hmiss. unfold LookupHost. rewrite Hmode.
  destruct (LookupNameInCache _ _ _ _ _) as [[v|] c] eqn:E; [done|].
  simpl. unfold AddResult. simpl. rewrite lookup_insert_eq.
  destruct (host_mappings c !! name) as [[prev [old|]]|]; eauto 10.
Qed.


(** ** Flushing the caches *)




(** ** The order of the records of a snapshot *)

Lemma QueryKey_compare_eq (a b : QueryKey) : QueryKey_compare a b = Eq ↔ a = b.
Proof.
  destruct a as [x|x], b as [y|y]; simpl; try (split; congruence).
  - rewrite (String_as_OT.cmp_eq x y). split; congruence.
  - rewrite N.compare_eq_iff. split; congruence.
Qed.

Lemma QueryKey_compare_antisym (a b : QueryKey) :
  QueryKey_compare b a = CompOpp (QueryKey_compare a b).
Proof.
  destruct a as [x|x], b as [y|y]; simpl; try done.
  - apply String_as_OT.cmp_antisym.
  - apply N.compare_antisym.
Qed.

Lemma QueryKey_compare_lt_trans (a b c : QueryKey) :
  QueryKey_compare a b = Lt → QueryKey_compare b c = Lt →
  QueryKey_compare a c = Lt.
Proof.
  destruct a as [x|x], b as [y|y], c as [z|z]; simpl; try done.
  - intros H1 H2. apply String_as_OT.cmp_lt.
    apply String_as_OT.cmp_lt in H1, H2.
    by eapply String_as_OT.lt_trans.
  - rewrite !N.compare_lt_iff. apply N.lt_trans.
Qed.

Lemma ReqType_rank_inj (s t : ReqType) : ReqType_rank s = ReqType_rank t → s = t.
Proof. destruct s, t; simpl; congruence. Qed.

Lemma record_le_total : Total record_le.
Proof.
  intros a b. unfold record_le, record_leb.
  rewrite (Nat.compare_antisym (ReqType_rank (req_type a))).
  rewrite (QueryKey_compare_antisym (req_key a) (req_key b)).
  destruct (ReqType_rank (req_type a) ?= ReqType_rank (req_type b)); simpl; auto.
  destruct (QueryKey_compare (req_key a) (req_key b)); simpl; auto.
Qed.

Lemma record_le_trans : Transitive record_le.
Proof.
  intros a b c. unfold record_le, record_leb.
  destruct (Nat.compare_spec (ReqType_rank (req_type a)) (ReqType_rank (req_type b)))
    as [Hab|Hab|Hab];
  destruct (Nat.compare_spec (ReqType_rank (req_type b)) (ReqType_rank (req_type c)))
    as [Hbc|Hbc|Hbc];
  destruct (Nat.compare_spec (ReqType_rank (req_type a)) (ReqType_rank (req_type c)))
    as [Hac|Hac|Hac]; try done; try lia.
  destruct (QueryKey_compare (req_key a) (req_key b)) eqn:E1; [| |done];
  destruct (QueryKey_compare (req_key b) (req_key c)) eqn:E2; try done; intros _ _.
  - apply QueryKey_compare_eq in E1, E2.
    assert (QueryKey_compare (req_key a) (req_key c) = Eq) as ->; [|done].
    apply QueryKey_compare_eq. congruence.
  - apply QueryKey_compare_eq in E1. by rewrite E1, E2.
  - apply QueryKey_compare_eq in E2. by rewrite <-E2, E1.
  - by rewrite (QueryKey_compare_lt_trans _ _ _ E1 E2).
Qed.

Lemma record_le_antisym (a b : Mapping) :
  record_le a b → record_le b a →
  req_type a = req_type b ∧ req_key a = req_key b.
Proof.
  unfold record_le, record_leb.
  rewrite (Nat.compare_antisym (ReqType_rank (req_type a))).
  rewrite (QueryKey_compare_antisym (req_key a) (req_key b)).
  destruct (Nat.compare_spec (ReqType_rank (req_type a)) (ReqType_rank (req_type b)))
    as [Hr|Hr|Hr]; simpl; try done.
  destruct (QueryKey_compare (req_key a) (req_key b)) eqn:E; simpl; try done.
  intros _ _. split; [by apply ReqType_rank_inj|by apply QueryKey_compare_eq].
Qed.

Lemma sort_records_Sorted (l : list Mapping) : Sorted record_le (sort_records l).
Proof. apply (@Sorted_merge_sort _ record_le _ record_le_total). Qed.

Lemma sort_records_Permutation (l : list Mapping) : sort_records l ≡ₚ l.
Proof. apply merge_sort_Permutation. Qed.

(** ** Loading and saving the cache file *)

Lemma saved_install (m : Mapping) (c : CacheStore) :
  is_saved_slot (slot_of m) → slot_free (slot_of m) c →
  saved (install m c) ≡ₚ m :: saved c.
Proof.
  unfold saved, install, host_currents, addr_entries.
  destruct (slot_of m) as [n|a|n]; simpl; intros Hs Hfree; [| |done].
  - by rewrite (map_to_list_insert _ _ _ Hfree).
  - rewrite (map_to_list_insert _ _ _ Hfree). simpl.
    by rewrite Permutation_middle.
Qed.

Lemma slot_free_install (s : Slot) (m : Mapping) (c : CacheStore) :
  s ≠ slot_of m → slot_free s c → slot_free s (install m c).
Proof.
  unfold install. destruct (slot_of m) as [n|a|n], s as [n'|a'|n']; simpl;
    intros Hne Hfree; try done; rewrite lookup_insert_ne; congruence.
Qed.

Lemma saved_load_lines (x : CacheFileContents) (c : CacheStore) :
  NoDup (slot_of <$> records x) →
  Forall (λ m, is_saved_slot (slot_of m) ∧ slot_free (slot_of m) c) (records x) →
  saved (load_lines x c) ≡ₚ saved c ++ records x.
Proof.
  revert c. induction x as [|l x IH]; intros c Hnd Hall.
  { simpl. by rewrite app_nil_r. }
  change (load_lines (l :: x) c) with (load_lines x (load_line c l)).
  destruct l as [| | |m]; simpl in *; try by apply IH.
  apply NoDup_cons in Hnd as [Hm Hnd].
  apply Forall_cons in Hall as [[Hs Hfree] Hall].
  rewrite IH; [|done|].
  - rewrite (saved_install m c Hs Hfree). by rewrite <-Permutation_middle.
  - apply Forall_forall. intros m' Hin.
    rewrite Forall_forall in Hall. destruct (Hall m' Hin) as [Hs' Hfree'].
    split; [done|]. apply slot_free_install; [|done].
    intros Heq. apply Hm. rewrite <-Heq. by apply list_elem_of_fmap_2.
Qed.

Lemma slot_of_type_key (a b : Mapping) :
  req_type a = req_type b → req_key a = req_key b → slot_of a = slot_of b.
Proof. unfold slot_of. by intros -> ->. Qed.

(** Two records of a list with distinct slots that share a slot are one. *)
Lemma NoDup_slot_inj (l : list Mapping) (a b : Mapping) :
  NoDup (slot_of <$> l) → a ∈ l → b ∈ l → slot_of a = slot_of b → a = b.
Proof.
  induction l as [|m l IH]; simpl; intros Hnd Ha Hb Heq.
  { by apply not_elem_of_nil in Ha. }
  apply NoDup_cons in Hnd as [Hm Hnd].
  apply elem_of_cons in Ha as [->|Ha], Hb as [->|Hb]; auto.
  - destruct Hm. rewrite Heq. by apply list_elem_of_fmap_2.
  - destruct Hm. rewrite <-Heq. by apply list_elem_of_fmap_2.
Qed.

(** C1, for files without two records in one slot: for a valid cache file
    whose records go to distinct slots of the name and address caches,
    loading it into an empty cache and saving gives the records of the
    file sorted by (req_type, key); and whatever the cache holds, [Save]
    writes records sorted by (req_type, key). *)
Theorem save_load_distinct_slots (x : CacheFileContents) :
  valid_file x →
  NoDup (slot_of <$> records x) →
  Forall (λ m, is_saved_slot (slot_of m)) (records x) →
  save_lines (load_lines x empty_cache) = normalize x ∧
  ∀ c, ∃ l, save_lines c = LRecord <$> l ∧ Sorted record_le l.
Proof.
  intros _ Hnd Hsaved. split.
  2:{ intros c. eexists. split; [done|]. apply sort_records_Sorted. }
  unfold save_lines, normalize. f_equal.
  assert (saved (load_lines x empty_cache) ≡ₚ records x) as Hperm.
  { rewrite saved_load_lines; [done|done|].
    eapply Forall_impl; [exact Hsaved|]. intros m Hm. split; [done|].
    unfold slot_free. destruct (slot_of m); apply lookup_empty. }
  apply (Sorted_unique_strong record_le (Transitive0 := record_le_trans)).
  - intros a b Ha Hb Hab Hba.
    rewrite sort_records_Permutation in Ha, Hb. rewrite Hperm in Ha.
    destruct (record_le_antisym a b Hab Hba) as [Ht Hk].
    eapply NoDup_slot_inj; eauto using slot_of_type_key.
  - apply sort_records_Sorted.
  - apply sort_records_Sorted.
  - by rewrite !sort_records_Permutation.
Qed.

Lemma valid_record_positive (t : timestamp) (k : QueryKey) (rt : ReqType)
    (i : PayloadItem) (n : N) :
  valid_record {| creation := t; req_key := k; req_type := rt;
                  payload := {[ i ]}; ttl := n; is_failed := false |}.
Proof. unfold valid_record. simpl. split; [set_solver|done]. Qed.

(** C1 as written fails: the second record of a name overwrites the first
    on load, so the saved file has one record where the sorted file has
    two. *)
Lemma save_load_duplicate_key :
  valid_file two_records_one_name ∧
  save_lines (load_lines two_records_one_name empty_cache)
    ≠ normalize two_records_one_name.
Proof.
  split.
  - repeat constructor; by apply valid_record_positive.
  - intros H. apply (f_equal length) in H. vm_compute in H. discriminate.
Qed.

(** Nor is a text record saved: [Save] writes the name and address caches
    only. *)
Lemma save_load_text_record_lost :
  valid_file one_text_record ∧
  save_lines (load_lines one_text_record empty_cache) = [] ∧
  normalize one_text_record = one_text_record.
Proof.
  split; [repeat constructor; by apply valid_record_positive|].
  split; vm_compute; reflexivity.
Qed.

Lemma save_load_distinct_slots_witness :
  let x := [ LComment;
             LRecord {| creation := 10%Q; req_key := KeyAddr 7%N; req_type := T_PTR;
                        payload := {[ inr "h.test"%string ]}; ttl := 60; is_failed := false |};
             LBlank;
             LRecord {| creation := 20%Q; req_key := KeyName "a.test"; req_type := T_A;
                        payload := {[ inl 2%N ]}; ttl := 300; is_failed := false |} ] in
  valid_file x ∧
  NoDup (slot_of <$> records x) ∧
  Forall (λ m, is_saved_slot (slot_of m)) (records x) ∧
  (save_lines (load_lines x empty_cache) = normalize x ∧
   ∀ c, ∃ l, save_lines c = LRecord <$> l ∧ Sorted record_le l).
Proof.
  intros x.
  assert (valid_file x) as Hv.
  { repeat constructor; by apply valid_record_positive. }
  assert (NoDup (slot_of <$> records x)) as Hnd.
  { simpl. apply NoDup_cons. split; [|apply NoDup_singleton].
    intros H. apply list_elem_of_singleton in H. discriminate. }
  assert (Forall (λ m, is_saved_slot (slot_of m)) (records x)) as Hs.
  { simpl. repeat constructor. }
  split; [exact Hv|]. split; [exact Hnd|]. split; [exact Hs|].
  exact (save_load_distinct_slots x Hv Hnd Hs).
Defined.

(** ** The registry of asynchronous requests *)

Lemma attached_app p tr tr' :
  attached p (tr ++ tr') = attached p tr ++ attached p tr'.
Proof. apply omap_app. Qed.

Lemma invocations_app p tr tr' :
  invocations p (tr ++ tr') = invocations p tr ++ invocations p tr'.
Proof. apply omap_app. Qed.

Lemma submitted_app tr tr' : submitted (tr ++ tr') = submitted tr ++ submitted tr'.
Proof. apply omap_app. Qed.

Lemma elem_of_submitted (p : ReqPtr) tr : p ∈ submitted tr ↔ Submitted p ∈ tr.
Proof.
  unfold submitted. rewrite list_elem_of_omap. split.
  - intros (e & He & Hp). destruct e; simplify_eq. done.
  - intros He. by exists (Submitted p).
Qed.

Lemma invocations_Invoked p q o (cbs : list LookupCallback) :
  invocations p ((λ cb, Invoked q cb o) <$> cbs) =
  if decide (q = p) then (λ cb, (cb, o)) <$> cbs else [].
Proof.
  unfold invocations. destruct (decide (q = p)) as [Heq|Hne];
    induction cbs as [|cb cbs IH]; csimpl; try done.
  - rewrite decide_True by done. by rewrite IH.
  - by rewrite decide_False by done.
Qed.

Lemma attached_Invoked p q o (cbs : list LookupCallback) :
  attached p ((λ cb, Invoked q cb o) <$> cbs) = [].
Proof. unfold attached. by induction cbs. Qed.

Lemma submitted_Invoked q o (cbs : list LookupCallback) :
  submitted ((λ cb, Invoked q cb o) <$> cbs) = [].
Proof. unfold submitted. by induction cbs. Qed.

Lemma elem_of_live_set g p : p ∈ live_set g ↔ ∃ r, live g p r.
Proof.
  unfold live_set, live. rewrite elem_of_dom. unfold is_Some.
  setoid_rewrite map_lookup_filter_Some. naive_solver.
Qed.

Lemma elem_of_in_flight g p :
  p ∈ in_flight g ↔ (∃ r, live g p r) ∧ p ∈ submitted (trace g).
Proof.
  unfold in_flight.
  by rewrite elem_of_intersection, elem_of_live_set, elem_of_list_to_set.
Qed.

(** Two registries with the same live requests and the same submitted
    requests have the same requests in flight. *)
Lemma in_flight_ext g g' :
  (∀ p, (∃ r, live g' p r) ↔ (∃ r, live g p r)) →
  (∀ p, p ∈ submitted (trace g') ↔ p ∈ submitted (trace g)) →
  in_flight g' = in_flight g.
Proof.
  intros Hl Hs. apply set_eq. intros p.
  by rewrite !elem_of_in_flight, Hl, Hs.
Qed.

Lemma in_flight_add g g' p :
  (∀ q, (∃ r, live g' q r) ∧ q ∈ submitted (trace g') ↔
        q = p ∨ ((∃ r, live g q r) ∧ q ∈ submitted (trace g))) →
  p ∉ in_flight g →
  size (in_flight g') = S (size (in_flight g)).
Proof.
  intros H Hp.
  assert (in_flight g' = {[p]} ∪ in_flight g) as ->.
  { apply set_eq. intros q.
    rewrite elem_of_union, elem_of_singleton, !elem_of_in_flight. apply H. }
  rewrite size_union by set_solver. by rewrite size_singleton.
Qed.

Lemma in_flight_remove g g' p :
  (∀ q, (∃ r, live g' q r) ∧ q ∈ submitted (trace g') ↔
        q ≠ p ∧ ((∃ r, live g q r) ∧ q ∈ submitted (trace g))) →
  p ∈ in_flight g →
  size (in_flight g) = S (size (in_flight g')).
Proof.
  intros H Hp.
  assert (in_flight g = {[p]} ∪ in_flight g') as ->.
  { apply set_eq. intros q.
    rewrite elem_of_union, elem_of_singleton, !elem_of_in_flight, H.
    rewrite elem_of_in_flight in Hp.
    destruct (decide (q = p)) as [->|]; naive_solver. }
  rewrite size_union; [by rewrite size_singleton|].
  apply disjoint_singleton_l. rewrite elem_of_in_flight, H. naive_solver.
Qed.

Lemma req_key_of_new_request k cb : key_ok k → req_key_of (new_request k cb) = k.
Proof.
  destruct k as [a|n|n]; simpl; intros Hk; [done| |];
    unfold req_key_of, request_kind, IsAddrReq; simpl;
    destruct n; simpl; congruence.
Qed.

Lemma req_key_of_add_callback cb r : req_key_of (add_callback cb r) = req_key_of r.
Proof. done. Qed.

Lemma req_key_of_set_time t r : req_key_of (set_time t r) = req_key_of r.
Proof. done. Qed.

Lemma reg_inv_add_effect e g : silent e → reg_inv g → reg_inv (add_effect e g).
Proof.
  intros He [].
  assert (∀ p, attached p (trace g ++ [e]) = attached p (trace g)) as Ha.
  { intros p. rewrite attached_app. destruct e; simpl; try done; by rewrite app_nil_r. }
  assert (∀ p, invocations p (trace g ++ [e]) = invocations p (trace g)) as Hi.
  { intros p. rewrite invocations_app. destruct e; simpl; try done; by rewrite app_nil_r. }
  assert (submitted (trace g ++ [e]) = submitted (trace g)) as Hs.
  { rewrite submitted_app. destruct e; simpl; try done; by rewrite app_nil_r. }
  constructor; unfold live, in_flight, live_set in *; simpl;
    try setoid_rewrite Ha; try setoid_rewrite Hi; try rewrite Hs; try done.
Qed.

Lemma live_attach p cb g q r' :
  live (attach p cb g) q r' ↔
  ∃ r, live g q r ∧ r' = if decide (p = q) then add_callback cb r else r.
Proof.
  unfold live, attach. simpl. rewrite lookup_alter.
  destruct (decide (p = q)) as [->|Hne].
  - destruct (reqs g !! q) as [r|]; simpl; [|naive_solver].
    split.
    + intros [? ?]. simplify_eq. eauto.
    + intros (r0 & [? ?] & ->). by simplify_eq.
  - naive_solver.
Qed.

Lemma alive_attach p cb g q :
  (∃ r', live (attach p cb g) q r') ↔ (∃ r, live g q r).
Proof.
  split.
  - intros [r' Hr']. apply live_attach in Hr' as (r & Hr & _). eauto.
  - intros [r Hr]. eexists. apply live_attach. eauto.
Qed.

Lemma reg_inv_attach k p cb g :
  reg_inv g → dedup_lookup k g = Some p → reg_inv (attach p cb g).
Proof.
  intros [Hfresh Hdl Hld Hnd Hql Hhs Htf Hpend Hceil Hcl Hcd] Hk.
  destruct (Hdl k p Hk) as (rp & Hrp & Hkp).
  assert (p < next_req g) as Hpn by (destruct Hrp; eauto).
  assert (∀ q, attached q (trace (attach p cb g)) =
               attached q (trace g) ++ if decide (p = q) then [cb] else []) as Ha.
  { intros q. simpl. rewrite attached_app. simpl. by case_decide. }
  assert (∀ q, invocations q (trace (attach p cb g)) = invocations q (trace g)) as Hi.
  { intros q. simpl. rewrite invocations_app. simpl. by rewrite app_nil_r. }
  assert (submitted (trace (attach p cb g)) = submitted (trace g)) as Hs.
  { simpl. rewrite submitted_app. simpl. by rewrite app_nil_r. }
  constructor.
  - intros q r'. simpl. rewrite lookup_alter.
    case_decide; subst; [|by apply Hfresh].
    destruct (reqs g !! q) eqn:E; [|done]. intros _. by eapply Hfresh.
  - intros k' q Hq. destruct (Hdl k' q Hq) as (r & Hr & Hkr).
    exists (if decide (p = q) then add_callback cb r else r). split.
    + apply live_attach. eauto.
    + by case_decide.
  - intros q r' Hr'. apply live_attach in Hr' as (r & Hr & ->).
    replace (req_key_of (if decide (p = q) then add_callback cb r else r))
      with (req_key_of r) by (by case_decide).
    by apply Hld.
  - done.
  - intros q Hq. rewrite alive_attach, Hs. by apply Hql.
  - intros q Hq. rewrite Hs. by apply Hhs.
  - intros q Hq. rewrite Ha, Hi, Hs. simpl in Hq.
    destruct (Htf q Hq) as (-> & -> & ?).
    rewrite decide_False by lia. done.
  - simpl. rewrite Hpend. f_equal. f_equal. symmetry. apply in_flight_ext.
    + intros q. apply alive_attach.
    + intros q. by rewrite Hs.
  - done.
  - intros q r' Hr'. apply live_attach in Hr' as (r & Hr & ->).
    rewrite Ha, Hi. destruct (Hcl q r Hr) as [Hc Hinv].
    split; [|done]. case_decide; simpl; [by rewrite Hc|by rewrite app_nil_r].
  - intros q Hq Hnl. rewrite Ha, Hi. rewrite alive_attach in Hnl.
    destruct (Hcd q Hq Hnl) as [o Ho]. exists o.
    rewrite decide_False; [by rewrite app_nil_r|].
    intros <-. apply Hnl. eauto.
Qed.

Lemma dedup_lookup_create k' k cb g :
  dedup_lookup k' (create k cb g) =
  if decide (k' = k) then Some (next_req g) else dedup_lookup k' g.
Proof.
  destruct k as [a|n|n], k' as [a'|n'|n']; simpl; try done;
    try (rewrite decide_False by congruence; done);
    rewrite lookup_insert; repeat case_decide; congruence.
Qed.

Lemma live_create k cb g q r' :
  reqs g !! next_req g = None →
  live (create k cb g) q r' ↔
  (q = next_req g ∧ r' = new_request k cb) ∨ (q ≠ next_req g ∧ live g q r').
Proof.
  intros Hnone. unfold live, create. simpl. rewrite lookup_insert.
  case_decide; subst.
  - split; [|intros [[_ ->]|[? _]]; [by destruct k|done]].
    intros [? _]. simplify_eq. by left.
  - naive_solver.
Qed.

Lemma reg_inv_create k cb g :
  reg_inv g → key_ok k → dedup_lookup k g = None → reg_inv (create k cb g).
Proof.
  intros [Hfresh Hdl Hld Hnd Hql Hhs Htf Hpend Hceil Hcl Hcd] Hok Hk.
  assert (reqs g !! (next_req g) = None) as Hnone.
  { destruct (reqs g !! (next_req g)) eqn:E; [|done]. apply Hfresh in E. lia. }
  assert (∀ q r, live g q r → q ≠ (next_req g)) as Hlt.
  { intros q r [Hq _] ->. congruence. }
  destruct (Htf (next_req g) ltac:(done)) as (Ha0 & Hi0 & Hs0).
  assert (∀ q, attached q (trace (create k cb g)) =
               attached q (trace g) ++ if decide ((next_req g) = q) then [cb] else []) as Ha.
  { intros q. simpl. rewrite attached_app. simpl. by case_decide. }
  assert (∀ q, invocations q (trace (create k cb g)) = invocations q (trace g)) as Hi.
  { intros q. simpl. rewrite invocations_app. simpl. by rewrite app_nil_r. }
  assert (submitted (trace (create k cb g)) = submitted (trace g)) as Hs.
  { simpl. rewrite submitted_app. simpl. by rewrite app_nil_r. }
  constructor.
  - intros q r'. simpl. rewrite lookup_insert. case_decide; subst; [lia|].
    intros Hq. apply Hfresh in Hq. lia.
  - intros k' q. rewrite dedup_lookup_create. case_decide; subst.
    + intros [= <-]. exists (new_request k cb). split.
      * apply live_create; auto.
      * by apply req_key_of_new_request.
    + intros Hq. destruct (Hdl k' q Hq) as (r & Hr & Hkr). exists r.
      split; [|done]. apply live_create; [done|]. right. eauto.
  - intros q r' Hr'. rewrite dedup_lookup_create.
    apply live_create in Hr' as [[-> ->]|[Hq Hr']]; [| |done].
    + by rewrite req_key_of_new_request, decide_True.
    + rewrite decide_False; [by apply Hld|].
      intros Heq. apply Hld in Hr'. congruence.
  - done.
  - intros q Hq. rewrite Hs. destruct (Hql q Hq) as [[r Hr] Hns].
    split; [|done]. exists r. apply live_create; [done|]. right. eauto.
  - intros q Hq. rewrite Hs. by apply Hhs.
  - intros q Hq. simpl in Hq. rewrite Ha, Hi, Hs.
    destruct (Htf q ltac:(lia)) as (-> & -> & ?).
    rewrite decide_False by lia. done.
  - simpl. rewrite Hpend. f_equal. f_equal. apply set_eq. intros q.
    rewrite !elem_of_in_flight, Hs. split.
    + intros [[r Hr] Hq]. split; [|done]. exists r.
      apply live_create; [done|]. right. eauto.
    + intros [[r Hr] Hq]. split; [|done].
      apply live_create in Hr as [[-> _]|[_ Hr]]; [done|eauto|done].
  - done.
  - intros q r' Hr'. rewrite Ha, Hi.
    apply live_create in Hr' as [[-> ->]|[Hq Hr']]; [| |done].
    + rewrite decide_True by done. rewrite Ha0, Hi0. by destruct k.
    + destruct (Hcl q r' Hr') as [-> ->].
      rewrite decide_False by done. by rewrite app_nil_r.
  - intros q Hq Hnl. simpl in Hq. rewrite Ha, Hi.
    assert (q ≠ (next_req g)) as Hne.
    { intros ->. apply Hnl. exists (new_request k cb).
      apply live_create; auto. }
    rewrite decide_False by done. rewrite app_nil_r.
    apply Hcd; [lia|].
    intros [r Hr]. apply Hnl. exists r. apply live_create; auto.
Qed.

Lemma live_submit now p g r q r' :
  reqs g !! p = Some r →
  live (submit now p g) q r' ↔
  ∃ r0, live g q r0 ∧ r' = if decide (p = q) then set_time now r0 else r0.
Proof.
  intros Hp. unfold live, submit. rewrite Hp. simpl. rewrite lookup_insert.
  case_decide; subst; [|naive_solver].
  split.
  - intros [? ?]. simplify_eq. eauto.
  - intros (r0 & [? ?] & ->). by simplify_eq.
Qed.

Lemma alive_submit now p g q :
  (∃ r', live (submit now p g) q r') ↔ (∃ r, live g q r).
Proof.
  destruct (reqs g !! p) as [r|] eqn:Hp.
  - split.
    + intros [r' Hr']. apply (live_submit _ _ _ r) in Hr' as (r0 & Hr0 & _); eauto.
    + intros [r0 Hr0]. eexists. apply (live_submit _ _ _ r); eauto.
  - unfold submit. by rewrite Hp.
Qed.

Lemma asyncs_queued_submit now p g :
  asyncs_queued (submit now p g) = asyncs_queued g.
Proof. unfold submit. by destruct (reqs g !! p). Qed.

Lemma reg_inv_submit now p g :
  reg_inv g → (∃ r, live g p r) → p ∉ submitted (trace g) →
  p ∉ asyncs_queued g → (asyncs_pending g < max_async_in_flight)%Z →
  reg_inv (submit now p g).
Proof.
  intros [Hfresh Hdl Hld Hnd Hql Hhs Htf Hpend Hceil Hcl Hcd]
    [r [Hr Hproc]] Hns Hnq Hlt.
  pose proof (live_submit now p g r) as Hlive. specialize (Hlive).
  assert (p < next_req g) as Hpn by eauto.
  assert (∀ q, attached q (trace (submit now p g)) = attached q (trace g)) as Ha.
  { intros q. unfold submit. rewrite Hr. simpl. rewrite attached_app. simpl.
    by rewrite app_nil_r. }
  assert (∀ q, invocations q (trace (submit now p g)) = invocations q (trace g)) as Hi.
  { intros q. unfold submit. rewrite Hr. simpl. rewrite invocations_app. simpl.
    by rewrite app_nil_r. }
  assert (submitted (trace (submit now p g)) = submitted (trace g) ++ [p]) as Hs.
  { unfold submit. rewrite Hr. simpl. by rewrite submitted_app. }
  assert (∀ k, dedup_lookup k (submit now p g) = dedup_lookup k g) as Hd.
  { intros k. unfold submit. rewrite Hr. by destruct k. }
  constructor.
  - intros q r'. unfold submit. rewrite Hr. simpl. rewrite lookup_insert.
    case_decide; subst; [by intros _|by apply Hfresh].
  - intros k q. rewrite Hd. intros Hq.
    destruct (Hdl k q Hq) as (r0 & Hr0 & Hk0).
    exists (if decide (p = q) then set_time now r0 else r0). split.
    + apply Hlive; eauto.
    + by case_decide.
  - intros q r' Hr'. rewrite Hd. apply Hlive in Hr' as (r0 & Hr0 & ->); [|done].
    replace (req_key_of (if decide (p = q) then set_time now r0 else r0))
      with (req_key_of r0) by (by case_decide).
    by apply Hld.
  - by rewrite asyncs_queued_submit.
  - intros q. rewrite asyncs_queued_submit, alive_submit, Hs. intros Hq.
    destruct (Hql q Hq) as [Hal Hq']. split; [done|].
    rewrite elem_of_app, list_elem_of_singleton. intros [?| ->]; done.
  - intros q. unfold submit at 1. rewrite Hr. simpl.
    rewrite pq_push_Permutation, Hs, elem_of_cons, elem_of_app, list_elem_of_singleton.
    intros [->|Hq]; auto.
  - intros q. unfold submit at 1. rewrite Hr. simpl. intros Hq.
    rewrite Ha, Hi, Hs. destruct (Htf q Hq) as (-> & -> & Hq').
    split; [done|]. split; [done|].
    rewrite elem_of_app, list_elem_of_singleton. intros [?| ->]; [done|lia].
  - assert (asyncs_pending (submit now p g) = (asyncs_pending g + 1)%Z) as ->.
    { unfold submit. by rewrite Hr. }
    rewrite (in_flight_add g (submit now p g) p), Hpend; [lia| |].
    + intros q. rewrite alive_submit, Hs, elem_of_app, list_elem_of_singleton.
      split.
      * intros [Hal [Hq| ->]]; eauto.
      * intros [->|[? ?]]; [|by eauto]. split; [|by right].
        exists r. by split.
    + rewrite elem_of_in_flight. by intros [_ ?].
  - assert (asyncs_pending (submit now p g) = (asyncs_pending g + 1)%Z) as ->.
    { unfold submit. by rewrite Hr. }
    lia.
  - intros q r' Hr'. apply Hlive in Hr' as (r0 & Hr0 & ->); [|done].
    rewrite Ha, Hi. destruct (Hcl q r0 Hr0) as [<- ->].
    split; [|done]. by case_decide.
  - intros q. unfold submit at 1. rewrite Hr. simpl. intros Hq Hnl.
    rewrite Ha, Hi. rewrite alive_submit in Hnl. by apply Hcd.
Qed.

Lemma reg_inv_set_queued q' g :
  reg_inv g → NoDup q' →
  (∀ p, p ∈ q' → (∃ r, live g p r) ∧ p ∉ submitted (trace g)) →
  reg_inv (set_queued q' g).
Proof.
  intros [Hfresh Hdl Hld Hnd Hql Hhs Htf Hpend Hceil Hcl Hcd] Hnd' Hq'.
  constructor; done.
Qed.

Lemma dedup_lookup_finish k' p o ok g r :
  live g p r →
  dedup_lookup k' (finish p o ok g) =
  if decide (k' = req_key_of r) then None else dedup_lookup k' g.
Proof.
  intros [Hp Hproc]. unfold finish. rewrite Hp, Hproc.
  destruct (req_key_of r) as [a|n|n], k' as [a'|n'|n']; simpl; try done;
    try (rewrite decide_False by congruence; done);
    rewrite lookup_delete; repeat case_decide; congruence.
Qed.

Lemma live_finish p o ok g r q r' :
  live g p r →
  live (finish p o ok g) q r' ↔ q ≠ p ∧ live g q r'.
Proof.
  intros [Hp Hproc]. unfold live, finish. rewrite Hp, Hproc. simpl.
  rewrite lookup_insert. case_decide; subst; [|naive_solver].
  split; [|naive_solver]. intros [? ?]. by simplify_eq.
Qed.

Lemma finish_not_live p o ok g :
  (¬ ∃ r, live g p r) → finish p o ok g = g.
Proof.
  intros Hnl. unfold finish. destruct (reqs g !! p) as [r|] eqn:Hp; [|done].
  destruct (processed r) eqn:Hproc; [done|].
  destruct Hnl. exists r. by split.
Qed.

Lemma reg_inv_finish p o ok g :
  reg_inv g → p ∈ submitted (trace g) → reg_inv (finish p o ok g).
Proof.
  intros Hinv Hsub.
  destruct (reqs g !! p) as [r|] eqn:Hp;
    [|by rewrite finish_not_live by (by intros [? [? ?]]; simplify_eq)].
  destruct (processed r) eqn:Hproc;
    [by rewrite finish_not_live by (intros [? [? ?]]; simplify_eq; congruence)|].
  assert (live g p r) as Hlp by done.
  destruct Hinv as [Hfresh Hdl Hld Hnd Hql Hhs Htf Hpend Hceil Hcl Hcd].
  pose proof (live_finish p o ok g r) as Hlive.
  pose proof (λ k', dedup_lookup_finish k' p o ok g r Hlp) as Hd.
  assert (p < next_req g) as Hpn by eauto.
  destruct (Hcl p r Hlp) as [Hcp Hip].
  assert (trace (finish p o ok g) =
          trace g ++ ((λ cb, Invoked p cb o) <$> callbacks r)) as Htr.
  { unfold finish. by rewrite Hp, Hproc. }
  assert (∀ q, attached q (trace (finish p o ok g)) = attached q (trace g)) as Ha.
  { intros q. by rewrite Htr, attached_app, attached_Invoked, app_nil_r. }
  assert (∀ q, invocations q (trace (finish p o ok g)) =
               invocations q (trace g) ++
               if decide (p = q) then (λ cb, (cb, o)) <$> callbacks r else []) as Hi.
  { intros q. by rewrite Htr, invocations_app, invocations_Invoked. }
  assert (submitted (trace (finish p o ok g)) = submitted (trace g)) as Hs.
  { by rewrite Htr, submitted_app, submitted_Invoked, app_nil_r. }
  assert (next_req (finish p o ok g) = next_req g) as Hn.
  { unfold finish. by rewrite Hp, Hproc. }
  constructor.
  - intros q r'. rewrite Hn. unfold finish. rewrite Hp, Hproc. simpl.
    rewrite lookup_insert. case_decide; subst; [by intros _|by apply Hfresh].
  - intros k q. rewrite Hd. case_decide; [done|]. intros Hq.
    destruct (Hdl k q Hq) as (r0 & Hr0 & Hk0). exists r0. split; [|done].
    apply Hlive; [done|]. split; [|done].
    intros ->. destruct Hr0 as [? _], Hlp as [? _]. congruence.
  - intros q r' Hr'. apply Hlive in Hr' as [Hq Hr']; [|done].
    rewrite Hd. rewrite decide_False; [by apply Hld|].
    intros Heq. apply Hld in Hr', Hlp. congruence.
  - unfold finish. by rewrite Hp, Hproc.
  - intros q. unfold finish at 1. rewrite Hp, Hproc. simpl. intros Hq.
    rewrite Hs. destruct (Hql q Hq) as [[r0 Hr0] Hq']. split; [|done].
    exists r0. apply Hlive; [done|]. split; [|done]. by intros ->.
  - intros q. unfold finish at 1. rewrite Hp, Hproc. simpl. rewrite Hs. apply Hhs.
  - intros q. rewrite Hn, Ha, Hi, Hs. intros Hq.
    destruct (Htf q Hq) as (-> & -> & ?). rewrite decide_False by lia. done.
  - assert (asyncs_pending (finish p o ok g) = (asyncs_pending g - 1)%Z) as ->.
    { unfold finish. by rewrite Hp, Hproc. }
    rewrite Hpend, (in_flight_remove g (finish p o ok g) p); [lia| |].
    + intros q. rewrite Hs. split.
      * intros [[r' Hr'] Hq]. apply Hlive in Hr' as [? ?]; eauto.
      * intros [Hq [[r' Hr'] Hq']]. split; [|done]. exists r'. by apply Hlive.
    + apply elem_of_in_flight. eauto.
  - assert (asyncs_pending (finish p o ok g) = (asyncs_pending g - 1)%Z) as ->.
    { unfold finish. by rewrite Hp, Hproc. }
    lia.
  - intros q r' Hr'. apply Hlive in Hr' as [Hq Hr']; [|done].
    rewrite Ha, Hi, decide_False, app_nil_r by done. by apply Hcl.
  - intros q. rewrite Hn, Ha, Hi. intros Hq Hnl.
    case_decide; subst.
    + exists o. by rewrite Hip, Hcp.
    + rewrite app_nil_r. apply Hcd; [done|].
      intros [r' Hr']. apply Hnl. exists r'. by apply Hlive.
Qed.

Lemma reg_inv_retire_top p g :
  reg_inv g → pq_top (asyncs_timeouts g) = Some p → (¬ ∃ r, live g p r) →
  reg_inv (retire_top p g).
Proof.
  intros [Hfresh Hdl Hld Hnd Hql Hhs Htf Hpend Hceil Hcl Hcd] Htop Hnl.
  assert (∀ q r, live (retire_top p g) q r ↔ live g q r) as Hlive.
  { intros q r. unfold live, retire_top. simpl. rewrite lookup_delete.
    case_decide; subst; [|done]. split; [by intros [? _]|].
    intros Hr. destruct Hnl. eauto. }
  constructor; simpl; try done.
  - intros q r. rewrite lookup_delete. case_decide; [done|]. apply Hfresh.
  - intros k q Hq. destruct (Hdl k q) as (r & Hr & Hk); [by destruct k|].
    exists r. split; [by apply Hlive|done].
  - intros q r Hr. apply Hlive in Hr. apply Hld in Hr. by destruct (req_key_of r).
  - intros q Hq. destruct (Hql q Hq) as [[r Hr] ?]. split; [|done].
    exists r. by apply Hlive.
  - intros q Hq. apply Hhs.
    rewrite <-(pq_pop_Permutation (ptr_compare (reqs g)) p _ Htop). by right.
  - rewrite Hpend. f_equal. f_equal. symmetry. apply in_flight_ext; [|done].
    intros q. by setoid_rewrite Hlive.
  - intros q r Hr. apply Hlive in Hr. by apply Hcl.
  - intros q Hq Hnl'. apply Hcd; [done|]. by setoid_rewrite <-Hlive.
Qed.

Lemma submit_effect now p g r :
  reqs g !! p = Some r →
  asyncs_pending (submit now p g) = (asyncs_pending g + 1)%Z ∧
  trace (submit now p g) = trace g ++ [Submitted p] ∧
  next_req (submit now p g) = next_req g.
Proof. intros Hp. unfold submit. by rewrite Hp. Qed.

(** [IssueAsyncRequests] hands the front of the queue to the channel, in
    order, for as many requests as slots are free. *)
Lemma issue_fifo now q g :
  reg_inv g → asyncs_queued g = q →
  let k := Nat.min (length q) (Z.to_nat (max_async_in_flight - asyncs_pending g)) in
  reg_inv (issue now q g) ∧
  asyncs_queued (issue now q g) = drop k q ∧
  trace (issue now q g) = trace g ++ (Submitted <$> take k q) ∧
  asyncs_pending (issue now q g) = (asyncs_pending g + Z.of_nat k)%Z ∧
  next_req (issue now q g) = next_req g.
Proof.
  revert g. induction q as [|p rest IH]; intros g Hinv Hq; simpl.
  { rewrite app_nil_r, Z.add_0_r. by rewrite Hq. }
  destruct (Z.ltb_spec (asyncs_pending g) max_async_in_flight) as [Hlt|Hge].
  2:{ replace (Z.to_nat (max_async_in_flight - asyncs_pending g)) with 0 by lia.
      simpl. rewrite app_nil_r, Z.add_0_r. by rewrite Hq. }
  pose proof (inv_queue_nodup g Hinv) as Hnd. rewrite Hq in Hnd.
  apply NoDup_cons in Hnd as [Hp Hnd].
  destruct (inv_queue_live g Hinv p) as [[r Hr] Hns]; [rewrite Hq; by left|].
  assert (reg_inv (set_queued rest g)) as Hinv1.
  { apply reg_inv_set_queued; [done|done|].
    intros p' Hp'. apply (inv_queue_live g Hinv). rewrite Hq. by right. }
  assert (reg_inv (submit now p (set_queued rest g))) as Hinv2.
  { apply reg_inv_submit; [done|by exists r|done|done|done]. }
  destruct Hr as [Hr Hproc].
  destruct (submit_effect now p (set_queued rest g) r Hr) as (Hpend & Htr & Hnext).
  destruct (IH (submit now p (set_queued rest g)) Hinv2
              (asyncs_queued_submit now p (set_queued rest g)))
    as (Hinv3 & Hq3 & Htr3 & Hp3 & Hn3).
  rewrite Hpend in Hq3, Htr3, Hp3.
  replace (Z.to_nat (max_async_in_flight - asyncs_pending g))
    with (S (Z.to_nat (max_async_in_flight - (asyncs_pending g + 1)))) by lia.
  simpl. split; [done|]. split; [done|]. split; [|split].
  - rewrite Htr3, Htr. simpl. by rewrite <-app_assoc.
  - rewrite Hp3. simpl. lia.
  - by rewrite Hn3, Hnext.
Qed.

Lemma reg_inv_IssueAsyncRequests now g :
  reg_inv g →
  reg_inv (IssueAsyncRequests now g) ∧
  (asyncs_queued (IssueAsyncRequests now g) ≠ [] →
   (max_async_in_flight ≤ asyncs_pending (IssueAsyncRequests now g))%Z).
Proof.
  intros Hinv. unfold IssueAsyncRequests.
  destruct (issue_fifo now (asyncs_queued g) g Hinv eq_refl)
    as (Hinv' & Hq & _ & Hp & _).
  split; [done|]. rewrite Hq, Hp. intros Hne.
  assert (Z.to_nat (max_async_in_flight - asyncs_pending g)
          < length (asyncs_queued g)).
  { destruct (decide (Z.to_nat (max_async_in_flight - asyncs_pending g)
                      < length (asyncs_queued g))) as [|Hge]; [done|].
    destruct Hne. apply drop_ge. lia. }
  lia.
Qed.

Lemma reg_inv_expire (fuel : nat) now g : reg_inv g → reg_inv (expire fuel now g).
Proof.
  revert g. induction fuel as [|fuel IH]; intros g Hinv; simpl; [done|].
  destruct (pq_top (asyncs_timeouts g)) as [p|] eqn:Htop; [|done].
  assert (p ∈ submitted (trace g)) as Hsub.
  { apply (inv_heap_submitted g Hinv). unfold pq_top in Htop.
    destruct (asyncs_timeouts g); simplify_eq/=. by left. }
  destruct (reqs g !! p) as [r|] eqn:Hp.
  2:{ apply IH, reg_inv_retire_top; [done|done|].
      intros [r [? _]]. congruence. }
  destruct (processed r) eqn:Hproc.
  { apply IH, reg_inv_retire_top; [done|done|].
    intros [r' [? ?]]. simplify_eq. congruence. }
  destruct (Qle_bool _ _); [|done].
  apply IH, reg_inv_retire_top.
  - by apply reg_inv_finish.
  - unfold finish. by rewrite Hp, Hproc.
  - intros [r' Hr']. apply (live_finish p TimedOut false g r) in Hr'; [|done].
    by destruct Hr'.
Qed.

Lemma expire_queue (fuel : nat) now g :
  asyncs_queued (expire fuel now g) = asyncs_queued g.
Proof.
  revert g. induction fuel as [|fuel IH]; intros g; simpl; [done|].
  destruct (pq_top (asyncs_timeouts g)) as [p|]; [|done].
  destruct (reqs g !! p) as [r|] eqn:Hp; [|by rewrite IH].
  destruct (processed r) eqn:Hproc; [by rewrite IH|].
  destruct (Qle_bool _ _); [|done].
  rewrite IH. simpl. unfold finish. by rewrite Hp, Hproc.
Qed.

Lemma reg_inv_register_lookup k cb now g :
  reg_inv g → key_ok k →
  (asyncs_queued g ≠ [] → (max_async_in_flight ≤ asyncs_pending g)%Z) →
  reg_inv (register_lookup k cb now g) ∧
  (asyncs_queued (register_lookup k cb now g) ≠ [] →
   (max_async_in_flight ≤ asyncs_pending (register_lookup k cb now g))%Z).
Proof.
  intros Hinv Hok Hfifo. unfold register_lookup.
  destruct (dedup_lookup k g) as [p|] eqn:Hk.
  { split; [by eapply reg_inv_attach|done]. }
  pose proof (reg_inv_create k cb g Hinv Hok Hk) as Hinv1.
  assert (reqs g !! next_req g = None) as Hnone.
  { destruct (reqs g !! next_req g) eqn:E; [|done].
    apply (inv_fresh g Hinv) in E. lia. }
  assert (live (create k cb g) (next_req g) (new_request k cb)) as Hlive.
  { apply live_create; auto. }
  assert (next_req g ∉ submitted (trace (create k cb g))) as Hns.
  { simpl. rewrite submitted_app. simpl. rewrite app_nil_r.
    by apply (inv_trace_fresh g Hinv). }
  assert (next_req g ∉ asyncs_queued g) as Hnq.
  { intros Hq. destruct (inv_queue_live g Hinv _ Hq) as [[r [Hr _]] _]. congruence. }
  unfold admission. change (asyncs_pending (create k cb g)) with (asyncs_pending g).
  destruct (Z.ltb_spec (asyncs_pending g) max_async_in_flight) as [Hlt|Hge].
  - split; [apply reg_inv_submit; eauto|].
    rewrite asyncs_queued_submit. simpl. intros Hne. specialize (Hfifo Hne). lia.
  - split; [|done].
    apply reg_inv_set_queued; [done| |].
    + apply NoDup_app. split; [by apply (inv_queue_nodup g Hinv)|].
      split; [|apply NoDup_singleton].
      intros q Hq. rewrite list_elem_of_singleton. by intros ->.
    + intros q. rewrite elem_of_app, list_elem_of_singleton. intros [Hq| ->].
      * apply (inv_queue_live _ Hinv1). done.
      * eauto.
Qed.

(** ** The invariant of the manager *)

Lemma reg_inv_empty : reg_inv empty_registry.
Proof.
  assert (∀ p r, ¬ live empty_registry p r) as Hnl.
  { intros p r [Hp _]. simpl in Hp. by rewrite lookup_empty in Hp. }
  constructor; simpl; try done.
  - intros k p. destruct k; simpl; by rewrite lookup_empty.
  - intros p r Hr. by destruct (Hnl p r).
  - apply NoDup_nil_2.
  - intros p Hp. by apply not_elem_of_nil in Hp.
  - intros p _. repeat split; try done. apply not_elem_of_nil.
  - intros p r Hr. by destruct (Hnl p r).
  - intros p Hp. lia.
Qed.

Lemma mgr_inv_new md fs : mgr_inv (DNS_Mgr_new md fs).
Proof. split; [apply reg_inv_empty|done]. Qed.

Lemma mgr_inv_add_effect e g m :
  silent e → mgr_inv m → reg m = g → ∀ m', reg m' = add_effect e g → mgr_inv m'.
Proof.
  intros He [Hinv Hfifo] <- m' Hm'. unfold mgr_inv. rewrite Hm'.
  split; [by apply reg_inv_add_effect|done].
Qed.

Lemma mgr_inv_async_lookup k cb now m :
  key_ok k → mgr_inv m → mgr_inv (async_lookup k cb now m).
Proof.
  intros Hok Hm. pose proof Hm as [Hinv Hfifo]. unfold async_lookup.
  destruct (cache_lookup k now (cache m)) as [[v|] c];
    destruct (mode m); simpl;
    try (by eapply (mgr_inv_add_effect _ _ m); eauto; simpl).
  - done.
  - by apply reg_inv_register_lookup.
Qed.

Lemma mgr_inv_on_complete p ans now m :
  Submitted p ∈ trace (reg m) → mgr_inv m → mgr_inv (on_complete p ans now m).
Proof.
  intros Hsub [Hinv Hfifo]. unfold on_complete.
  destruct (reqs (reg m) !! p) as [r|]; [|done].
  destruct (processed r); [done|].
  apply reg_inv_IssueAsyncRequests, reg_inv_finish; [done|].
  by apply elem_of_submitted.
Qed.

Lemma mgr_inv_Process now m : mgr_inv m → mgr_inv (Process now m).
Proof.
  intros [Hinv Hfifo]. unfold Process.
  by apply reg_inv_IssueAsyncRequests, reg_inv_expire.
Qed.

Lemma mgr_inv_LookupHost name reply now m :
  mgr_inv m → mgr_inv (snd (LookupHost name reply now m)).
Proof.
  intros Hm. unfold LookupHost.
  destruct (LookupNameInCache name false false now (cache m)) as [[v|] c];
    destruct (mode m); simpl; try done;
    destruct reply; simpl;
    by eapply (mgr_inv_add_effect (SyncQuery _) _ m); eauto; simpl.
Qed.

Lemma mgr_inv_step m m' : step m m' → mgr_inv m → mgr_inv m'.
Proof.
  intros [k cb now m0 Hok|p ans now m0 Hsub|now m0|name reply now m0|m0 m1 Hreg].
  - by apply mgr_inv_async_lookup.
  - by apply mgr_inv_on_complete.
  - apply mgr_inv_Process.
  - apply mgr_inv_LookupHost.
  - unfold mgr_inv. by rewrite Hreg.
Qed.

Lemma reachable_mgr_inv m : reachable m → mgr_inv m.
Proof.
  intros (md & fs & Hrtc). revert m Hrtc.
  apply rtc_ind_r; [apply mgr_inv_new|].
  intros y z _ Hs IH. by eapply mgr_inv_step.
Qed.


(** ** One live request per key *)



(** ** One terminal call per callback *)



(** ** The ceiling on requests in flight *)




(** ** The timeout queue of the manager *)

Lemma is_heap_ext {A} (comp comp' : A → A → bool) (c : list A) :
  (∀ x y, x ∈ c → y ∈ c → comp' x y = comp x y) →
  is_heap comp c → is_heap comp' c.
Proof.
  intros H Hc i j x y Hij Hx Hy.
  rewrite H by eauto using list_elem_of_lookup_2. by eapply Hc.
Qed.

Lemma ptr_compare_trans mem (x y z : ReqPtr) :
  ptr_compare mem x y = false → ptr_compare mem y z = false →
  ptr_compare mem x z = false.
Proof. apply AsyncRequestCompare_trans. Qed.

Lemma ptr_compare_asym mem (x y : ReqPtr) :
  ptr_compare mem x y = true → ptr_compare mem y x = false.
Proof. apply AsyncRequestCompare_asym. Qed.

Lemma is_heap_same_times mem mem' (c : list ReqPtr) :
  (∀ p, p ∈ c → time (deref mem' p) = time (deref mem p)) →
  is_heap (ptr_compare mem) c → is_heap (ptr_compare mem') c.
Proof.
  intros H. apply is_heap_ext. intros x y Hx Hy.
  unfold ptr_compare, AsyncRequestCompare. by rewrite !H.
Qed.

Lemma pq_pop_length {A} (comp : A → A → bool) (c : list A) :
  length (pq_pop comp c) = length c - 1.
Proof.
  rewrite pq_pop_eq, sift_down_length, length_take, swap_length. lia.
Qed.

Lemma silent_submitted e tr : silent e → submitted (tr ++ [e]) = submitted tr.
Proof.
  intros He. rewrite submitted_app. destruct e; simpl; try done;
    by rewrite app_nil_r.
Qed.

Lemma heap_inv_add_effect e g : silent e → heap_inv g → heap_inv (add_effect e g).
Proof.
  intros He [Hh Hal Hnd Hif]. constructor; simpl; try done.
  intros p r Hr. rewrite silent_submitted by done. by apply (Hif p r).
Qed.

Lemma heap_inv_set_queued q g : heap_inv g → heap_inv (set_queued q g).
Proof. intros [Hh Hal Hnd Hif]. by constructor. Qed.

Lemma heap_inv_attach p cb g : heap_inv g → heap_inv (attach p cb g).
Proof.
  intros [Hh Hal Hnd Hif]. constructor; simpl; try done.
  - eapply is_heap_same_times; [|exact Hh]. intros q _.
    unfold deref. rewrite lookup_alter. case_decide; subst; [|done].
    by destruct (reqs g !! q).
  - intros q Hq. rewrite lookup_alter. case_decide; subst; [|by apply Hal].
    destruct (Hal q Hq) as [r ->]. by eexists.
  - intros q r' Hr'. apply live_attach in Hr' as (r & Hr & _).
    rewrite submitted_app. simpl. rewrite app_nil_r. by apply (Hif q r).
Qed.

Lemma heap_inv_create k cb g :
  reg_inv g → heap_inv g → heap_inv (create k cb g).
Proof.
  intros Hinv [Hh Hal Hnd Hif].
  assert (∀ q, q ∈ asyncs_timeouts g → q ≠ next_req g) as Hne.
  { intros q Hq ->. destruct (Hal _ Hq) as [r Hr].
    apply (inv_fresh g Hinv) in Hr. lia. }
  assert (reqs g !! next_req g = None) as Hnone.
  { destruct (reqs g !! next_req g) eqn:E; [|done].
    apply (inv_fresh g Hinv) in E. lia. }
  constructor; simpl; try done.
  - eapply is_heap_same_times; [|exact Hh]. intros q Hq.
    unfold deref. by rewrite lookup_insert_ne by (symmetry; by apply Hne).
  - intros q Hq. rewrite lookup_insert_ne by (symmetry; by apply Hne).
    by apply Hal.
  - intros q r' Hr'. rewrite submitted_app. simpl. rewrite app_nil_r. intros Hq.
    apply live_create in Hr' as [[-> _]|[_ Hr']]; [|by eapply Hif|done].
    by destruct (inv_trace_fresh g Hinv (next_req g)) as (_ & _ & ?).
Qed.

Lemma heap_inv_submit now p g :
  reg_inv g → heap_inv g → (∃ r, live g p r) → p ∉ submitted (trace g) →
  heap_inv (submit now p g).
Proof.
  intros Hinv [Hh Hal Hnd Hif] [r [Hr Hproc]] Hns.
  assert (p ∉ asyncs_timeouts g) as Hnh.
  { intros Hp. by apply (inv_heap_submitted g Hinv) in Hp. }
  pose proof (live_submit now p g r) as Hlive.
  unfold submit in *. rewrite Hr in *. simpl in *.
  set (mem := <[p := set_time now r]> (reqs g)) in *.
  assert (is_heap (ptr_compare mem) (asyncs_timeouts g)) as Hh'.
  { eapply is_heap_same_times; [|exact Hh]. intros q Hq.
    unfold deref, mem. rewrite lookup_insert_ne; [done|]. by intros ->. }
  constructor; simpl.
  - apply pq_push_is_heap;
      eauto using ptr_compare_trans, ptr_compare_asym.
  - intros q. rewrite pq_push_Permutation, elem_of_cons. unfold mem.
    rewrite lookup_insert. case_decide; [by eexists|].
    intros [?|Hq]; [congruence|by apply Hal].
  - rewrite pq_push_Permutation. by apply NoDup_cons.
  - intros q r' Hr'. rewrite pq_push_Permutation, elem_of_cons.
    rewrite submitted_app, elem_of_app. simpl. rewrite list_elem_of_singleton.
    apply Hlive in Hr' as (r0 & Hr0 & _); [|done].
    intros [Hq|Hq]; [right; by eapply Hif|by left].
Qed.

Lemma heap_inv_finish p o ok g : heap_inv g → heap_inv (finish p o ok g).
Proof.
  intros Hinv.
  destruct (reqs g !! p) as [r|] eqn:Hp;
    [|by rewrite finish_not_live by (by intros [? [? ?]]; simplify_eq)].
  destruct (processed r) eqn:Hproc;
    [by rewrite finish_not_live by (intros [? [? ?]]; simplify_eq; congruence)|].
  pose proof (λ q r', live_finish p o ok g r q r' (conj Hp Hproc)) as Hlive.
  destruct Hinv as [Hh Hal Hnd Hif].
  unfold finish in *. rewrite Hp, Hproc in *. simpl in *.
  constructor; simpl; try done.
  - eapply is_heap_same_times; [|exact Hh]. intros q _.
    unfold deref. rewrite lookup_insert. case_decide; subst; [|done].
    by rewrite Hp.
  - intros q Hq. rewrite lookup_insert. case_decide; [by eexists|by apply Hal].
  - intros q r' Hr'. apply Hlive in Hr' as [_ Hr'].
    rewrite submitted_app, submitted_Invoked, app_nil_r. by eapply Hif.
Qed.

Lemma heap_inv_retire_top p g :
  heap_inv g → pq_top (asyncs_timeouts g) = Some p → (¬ ∃ r, live g p r) →
  heap_inv (retire_top p g).
Proof.
  intros [Hh Hal Hnd Hif] Htop Hnl.
  pose proof (pq_pop_Permutation (ptr_compare (reqs g)) p _ Htop) as Hperm.
  assert (NoDup (p :: pq_pop (ptr_compare (reqs g)) (asyncs_timeouts g))) as Hnd'.
  { by rewrite Hperm. }
  apply NoDup_cons in Hnd' as [Hp Hnd'].
  assert (∀ q, q ∈ pq_pop (ptr_compare (reqs g)) (asyncs_timeouts g) →
               q ≠ p ∧ q ∈ asyncs_timeouts g) as Hsub.
  { intros q Hq. split; [by intros ->|]. rewrite <-Hperm. by right. }
  constructor; simpl; try done.
  - eapply is_heap_same_times.
    + intros q Hq. destruct (Hsub q Hq) as [Hne _].
      unfold deref. by rewrite lookup_delete_ne.
    + apply pq_pop_is_heap; eauto using ptr_compare_trans, ptr_compare_asym.
  - intros q Hq. destruct (Hsub q Hq) as [Hne Hin].
    rewrite lookup_delete_ne by done. by apply Hal.
  - intros q r [Hq Hproc] Hs. simpl in Hq.
    rewrite lookup_delete in Hq. case_decide; [done|].
    assert (q ∈ asyncs_timeouts g) as Hin by (by eapply Hif).
    rewrite <-Hperm in Hin. apply elem_of_cons in Hin as [?|?]; [congruence|done].
Qed.

(** What every pass of the loop of [IssueAsyncRequests] keeps, the whole
    loop keeps. *)
Lemma issue_preserves (P : Registry → Prop) now :
  (∀ g p rest r, reg_inv (set_queued rest g) → P g →
     live g p r → p ∉ submitted (trace g) →
     P (submit now p (set_queued rest g))) →
  ∀ q g, reg_inv g → asyncs_queued g = q → P g → P (issue now q g).
Proof.
  intros Hstep q. induction q as [|p rest IH]; intros g Hinv Hq HP; simpl; [done|].
  destruct (Z.ltb_spec (asyncs_pending g) max_async_in_flight) as [Hlt|Hge]; [|done].
  pose proof (inv_queue_nodup g Hinv) as Hnd. rewrite Hq in Hnd.
  apply NoDup_cons in Hnd as [Hp Hnd].
  destruct (inv_queue_live g Hinv p) as [[r Hr] Hns]; [rewrite Hq; by left|].
  assert (reg_inv (set_queued rest g)) as Hinv1.
  { apply reg_inv_set_queued; [done|done|].
    intros p' Hp'. apply (inv_queue_live g Hinv). rewrite Hq. by right. }
  apply IH.
  - apply reg_inv_submit; [done|by exists r|done|done|done].
  - apply asyncs_queued_submit.
  - by eapply Hstep.
Qed.

Lemma heap_inv_IssueAsyncRequests now g :
  reg_inv g → heap_inv g → heap_inv (IssueAsyncRequests now g).
Proof.
  intros Hinv Hh. unfold IssueAsyncRequests.
  apply (issue_preserves heap_inv now); [|done|done|done].
  clear. intros g p rest r Hinv Hh Hr Hns.
  apply heap_inv_submit; [done|by apply heap_inv_set_queued|by exists r|done].
Qed.

Lemma unexpired_mono now (r r' : AsyncRequest) :
  (time r <= time r')%Q → unexpired now r → unexpired now r'.
Proof.
  unfold unexpired. intros Hle Hr.
  destruct (Qle_bool (time r' + async_timeout) now) eqn:E; [|done].
  apply Qle_bool_iff in E.
  assert (Qle_bool (time r + async_timeout) now = true) as Hc; [|congruence].
  apply Qle_bool_iff. lra.
Qed.

Lemma unexpired_now now (r : AsyncRequest) : unexpired now (set_time now r).
Proof.
  unfold unexpired. simpl.
  destruct (Qle_bool (now + async_timeout) now) eqn:E; [|done].
  apply Qle_bool_iff in E. unfold async_timeout in E. lra.
Qed.

Lemma none_expired_IssueAsyncRequests now g :
  reg_inv g → none_expired now g → none_expired now (IssueAsyncRequests now g).
Proof.
  intros Hinv Hne. unfold IssueAsyncRequests.
  apply (issue_preserves (none_expired now) now); [|done|done|done].
  clear. intros g p rest r Hinv Hne [Hr Hproc] Hns q r' Hr'.
  apply (live_submit now p (set_queued rest g) r) in Hr' as (r0 & Hr0 & ->); [|done].
  unfold submit. simpl. rewrite Hr. simpl.
  rewrite submitted_app, elem_of_app. simpl. rewrite list_elem_of_singleton.
  case_decide; subst; [intros _; apply unexpired_now|].
  intros [Hq|?]; [|congruence]. by apply (Hne q r0).
Qed.

(** The polling of the timeout queue leaves no request in flight past its
    deadline. *)
Lemma expire_spec (fuel : nat) now g :
  reg_inv g → heap_inv g → length (asyncs_timeouts g) ≤ fuel →
  heap_inv (expire fuel now g) ∧ none_expired now (expire fuel now g).
Proof.
  revert g. induction fuel as [|fuel IH]; intros g Hinv Hh Hlen; simpl.
  { split; [done|]. intros p r Hr Hs.
    pose proof (hi_in_flight g Hh p r Hr Hs) as Hin.
    destruct (asyncs_timeouts g); [by apply not_elem_of_nil in Hin|simpl in Hlen; lia]. }
  destruct (pq_top (asyncs_timeouts g)) as [p|] eqn:Htop.
  2:{ split; [done|]. intros q r Hr Hs.
      pose proof (hi_in_flight g Hh q r Hr Hs) as Hin.
      destruct (asyncs_timeouts g); [by apply not_elem_of_nil in Hin|done]. }
  assert (p ∈ asyncs_timeouts g) as Hin.
  { unfold pq_top in Htop. destruct (asyncs_timeouts g); simplify_eq/=. by left. }
  assert (p ∈ submitted (trace g)) as Hsub by (by apply (inv_heap_submitted g Hinv)).
  assert (∀ g', asyncs_timeouts g' = asyncs_timeouts g →
            length (asyncs_timeouts (retire_top p g')) ≤ fuel) as Hlen'.
  { intros g' Hg'. simpl. rewrite pq_pop_length, Hg'.
    destruct (asyncs_timeouts g); simpl in *; [done|lia]. }
  destruct (reqs g !! p) as [r|] eqn:Hp.
  2:{ apply IH; [| |by apply Hlen'; auto].
      - apply reg_inv_retire_top; [done|done|]. intros [r [? _]]. congruence.
      - apply heap_inv_retire_top; [done|done|]. intros [r [? _]]. congruence. }
  destruct (processed r) eqn:Hproc.
  { apply IH; [| |by apply Hlen'; auto].
    - apply reg_inv_retire_top; [done|done|].
      intros [r' [? ?]]. simplify_eq. congruence.
    - apply heap_inv_retire_top; [done|done|].
      intros [r' [? ?]]. simplify_eq. congruence. }
  destruct (Qle_bool (time r + async_timeout) now) eqn:Hexp.
  - assert (asyncs_timeouts (finish p TimedOut false g) = asyncs_timeouts g) as Hsame.
    { unfold finish. by rewrite Hp, Hproc. }
    assert (¬ ∃ r', live (finish p TimedOut false g) p r') as Hnl.
    { intros [r' Hr']. apply (live_finish p TimedOut false g r) in Hr'; [|done].
      by destruct Hr'. }
    apply IH; [| |by apply Hlen'; auto].
    + apply reg_inv_retire_top; [by apply reg_inv_finish|by rewrite Hsame|done].
    + apply heap_inv_retire_top; [by apply heap_inv_finish|by rewrite Hsame|done].
  - split; [done|]. intros q r' Hr' Hs.
    assert (q ∈ asyncs_timeouts g) as Hq by (by eapply (hi_in_flight g Hh)).
    apply list_elem_of_lookup in Hq as [j Hj].
    pose proof (is_heap_top_min (ptr_compare (reqs g))
                  (ptr_compare_trans _) (ptr_compare_asym _)
                  _ p (hi_heap g Hh) Htop j q Hj) as Hmin.
    unfold ptr_compare, deref in Hmin. destruct Hr' as [Hq' _].
    rewrite Hp, Hq' in Hmin. simpl in Hmin.
    apply AsyncRequestCompare_false in Hmin.
    by eapply unexpired_mono.
Qed.

Lemma heap_inv_register_lookup k cb now g :
  reg_inv g → key_ok k → heap_inv g → heap_inv (register_lookup k cb now g).
Proof.
  intros Hinv Hok Hh. unfold register_lookup.
  destruct (dedup_lookup k g) as [p|] eqn:Hk; [by apply heap_inv_attach|].
  pose proof (reg_inv_create k cb g Hinv Hok Hk) as Hinv1.
  pose proof (heap_inv_create k cb g Hinv Hh) as Hh1.
  assert (reqs g !! next_req g = None) as Hnone.
  { destruct (reqs g !! next_req g) eqn:E; [|done].
    apply (inv_fresh g Hinv) in E. lia. }
  unfold admission. destruct (_ <? _)%Z; [|by apply heap_inv_set_queued].
  apply heap_inv_submit; [done|done| |].
  - exists (new_request k cb). apply live_create; auto.
  - simpl. rewrite submitted_app. simpl. rewrite app_nil_r.
    by apply (inv_trace_fresh g Hinv).
Qed.

Lemma heap_inv_step m m' :
  step m m' → mgr_inv m → heap_inv (reg m) → heap_inv (reg m').
Proof.
  intros [k cb now m0 Hok|p ans now m0 Hsub|now m0|name reply now m0|m0 m1 Hreg]
    [Hinv Hfifo] Hh.
  - unfold async_lookup.
    destruct (cache_lookup k now (cache m0)) as [[v|] c];
      destruct (mode m0); simpl; try done;
      try (by apply heap_inv_add_effect).
    by apply heap_inv_register_lookup.
  - unfold on_complete.
    destruct (reqs (reg m0) !! p) as [r|]; [|done].
    destruct (processed r); [done|]. simpl.
    apply heap_inv_IssueAsyncRequests; [|by apply heap_inv_finish].
    apply reg_inv_finish; [done|]. by apply elem_of_submitted.
  - unfold Process. simpl.
    apply heap_inv_IssueAsyncRequests; [by apply reg_inv_expire|].
    by apply expire_spec.
  - unfold LookupHost.
    destruct (LookupNameInCache name false false now (cache m0)) as [[v|] c];
      destruct (mode m0); simpl; try done;
      destruct reply; simpl; by apply heap_inv_add_effect.
  - by rewrite Hreg.
Qed.

Lemma heap_inv_empty : heap_inv empty_registry.
Proof.
  constructor; simpl.
  - apply is_heap_nil.
  - intros p Hp. by apply not_elem_of_nil in Hp.
  - apply NoDup_nil_2.
  - intros p r [Hp _]. simpl in Hp. by rewrite lookup_empty in Hp.
Qed.

Lemma reachable_heap_inv m : reachable m → heap_inv (reg m).
Proof.
  intros Hreach. pose proof Hreach as (md & fs & Hrtc).
  assert (mgr_inv m ∧ heap_inv (reg m)) as [_ ?]; [|done].
  clear Hreach. revert m Hrtc. apply rtc_ind_r.
  - split; [apply mgr_inv_new|apply heap_inv_empty].
  - intros y z _ Hs [Hm Hh].
    split; [by eapply mgr_inv_step|by eapply heap_inv_step].
Qed.

(** In every state of the manager the request at the top of
    [asyncs_timeouts] has the least time of the requests in the queue. *)
Lemma asyncs_timeouts_top_min (m : DNS_Mgr) (p : ReqPtr) :
  reachable m → pq_top (asyncs_timeouts (reg m)) = Some p →
  ∀ q, q ∈ asyncs_timeouts (reg m) →
    ∃ rp rq, reqs (reg m) !! p = Some rp ∧ reqs (reg m) !! q = Some rq ∧
             (time rp <= time rq)%Q.
Proof.
  intros Hreach Htop q Hq. pose proof (reachable_heap_inv m Hreach) as Hh.
  assert (p ∈ asyncs_timeouts (reg m)) as Hp.
  { unfold pq_top in Htop. destruct (asyncs_timeouts (reg m)); simplify_eq/=. by left. }
  destruct (hi_alloc _ Hh p Hp) as [rp Hrp].
  destruct (hi_alloc _ Hh q Hq) as [rq Hrq].
  exists rp, rq. split; [done|]. split; [done|].
  apply list_elem_of_lookup in Hq as [j Hj].
  pose proof (is_heap_top_min (ptr_compare (reqs (reg m)))
                (ptr_compare_trans _) (ptr_compare_asym _)
                _ p (hi_heap _ Hh) Htop j q Hj) as Hmin.
  unfold ptr_compare, deref in Hmin. rewrite Hrp, Hrq in Hmin.
  by apply AsyncRequestCompare_false.
Qed.

(** After [Process] at time [now] no request in flight is past its
    deadline: each one that was has had its [Timeout] calls. *)
Lemma Process_none_expired (m : DNS_Mgr) now :
  reachable m → none_expired now (reg (Process now m)).
Proof.
  intros Hreach. destruct (reachable_mgr_inv m Hreach) as [Hinv _].
  pose proof (reachable_heap_inv m Hreach) as Hh.
  unfold Process. simpl.
  apply none_expired_IssueAsyncRequests; [by apply reg_inv_expire|].
  by apply expire_spec.
Qed.

(* ================================================================== *)
(** * Part III: more properties of the header *)
(* ================================================================== *)

(** ** The comparator *)

Lemma AsyncRequestCompare_true (a b : AsyncRequest) :
  AsyncRequestCompare a b = true ↔ (time b < time a)%Q.
Proof.
  unfold AsyncRequestCompare, Qgt_bool. rewrite negb_true_iff. split.
  - intros H. apply Qnot_le_lt. intros Hle.
    apply Qle_bool_iff in Hle. congruence.
  - intros Hlt. destruct (Qle_bool (time a) (time b)) eqn:E; [|done].
    apply Qle_bool_iff in E. lra.
Qed.

(** X1: [AsyncRequestCompare] is a strict weak ordering, as
    [std::priority_queue] needs of its comparator: it is irreflexive,
    asymmetric and transitive, and being unordered by it is having equal
    times, which is transitive. *)
Theorem AsyncRequestCompare_strict_weak_order :
  (∀ a, AsyncRequestCompare a a = false) ∧
  (∀ a b, AsyncRequestCompare a b = true → AsyncRequestCompare b a = false) ∧
  (∀ a b c, AsyncRequestCompare a b = true → AsyncRequestCompare b c = true →
            AsyncRequestCompare a c = true) ∧
  (∀ a b, same_deadline a b ↔ (time a == time b)%Q) ∧
  (∀ a b c, same_deadline a b → same_deadline b c → same_deadline a c).
Proof.
  assert (∀ a b, same_deadline a b ↔ (time a == time b)%Q) as Heq.
  { intros a b. unfold same_deadline. rewrite !AsyncRequestCompare_false. split.
    - intros [H1 H2]. by apply Qle_antisym.
    - intros H. split; rewrite H; apply Qle_refl. }
  split; [|split; [|split; [|split]]].
  - intros a. apply AsyncRequestCompare_false, Qle_refl.
  - apply AsyncRequestCompare_asym.
  - intros a b c. rewrite !AsyncRequestCompare_true. intros H1 H2.
    by eapply Qlt_trans.
  - done.
  - intros a b c. rewrite !Heq. intros H1 H2. by rewrite H1.
Qed.

(** ** The vector under the timeout queue *)

(** X2: whatever pushes and pops built the timeout queue, its vector is a
    heap on the times ([std::is_heap] for the comparator): the request at
    an index is not earlier than the one at its parent index. *)
Theorem timeout_queue_parent_not_later (ops : list (pq_op AsyncRequest))
    (i j : nat) (x y : AsyncRequest) :
  let q : TimeoutQueue := pq_run AsyncRequestCompare ops in
  j = 2 * i + 1 ∨ j = 2 * i + 2 →
  q !! i = Some x → q !! j = Some y →
  (time x <= time y)%Q.
Proof.
  intros q Hij Hx Hy. apply AsyncRequestCompare_false.
  eapply (pq_run_is_heap AsyncRequestCompare); eauto using
    AsyncRequestCompare_trans, AsyncRequestCompare_asym.
Qed.

Lemma timeout_queue_parent_not_later_witness :
  let r (t : Q) := set_time t AsyncRequest_default in
  let ops := [OpPush (r 5%Q); OpPush (r 3%Q); OpPush (r 7%Q); OpPush (r 1%Q)] in
  let q := pq_run AsyncRequestCompare ops in
  (3 = 2 * 1 + 1 ∨ 3 = 2 * 1 + 2) ∧
  q !! 1 = Some (r 3%Q) ∧ q !! 3 = Some (r 5%Q) ∧ (3 <= 5)%Q.
Proof.
  intros r ops q.
  assert (3 = 2 * 1 + 1 ∨ 3 = 2 * 1 + 2) as H1 by (left; reflexivity).
  assert (q !! 1 = Some (r 3%Q)) as H2 by reflexivity.
  assert (q !! 3 = Some (r 5%Q)) as H3 by reflexivity.
  split; [exact H1|]. split; [exact H2|]. split; [exact H3|].
  exact (timeout_queue_parent_not_later ops 1 3 (r 3%Q) (r 5%Q) H1 H2 H3).
Defined.

Lemma pq_pop_subseteq {A} (comp : A → A → bool) (c : list A) (x : A) :
  x ∈ pq_pop comp c → x ∈ c.
Proof.
  rewrite pq_pop_eq, sift_down_Permutation. intros Hx.
  apply subseteq_take in Hx. by rewrite swap_Permutation in Hx.
Qed.

(** X3: a push adds the request to the queue and changes nothing else of
    its contents; a pop takes one request away and brings none in; the
    queue has no top exactly when it is empty. *)
Theorem timeout_queue_contents (q : TimeoutQueue) (x : AsyncRequest) :
  pq_push AsyncRequestCompare x q ≡ₚ x :: q ∧
  length (pq_push AsyncRequestCompare x q) = S (length q) ∧
  length (pq_pop AsyncRequestCompare q) = length q - 1 ∧
  (∀ r, r ∈ pq_pop AsyncRequestCompare q → r ∈ q) ∧
  (pq_top q = None ↔ q = []).
Proof.
  split; [apply pq_push_Permutation|]. split.
  { by rewrite pq_push_Permutation. }
  split; [apply pq_pop_length|]. split; [apply pq_pop_subseteq|].
  by destruct q.
Qed.

(** X4: after a push the top of the queue is a request of the queue (the
    new one or an old one) whose time is the least of them all. *)
Theorem timeout_queue_push_top (ops : list (pq_op AsyncRequest)) (x : AsyncRequest) :
  let q : TimeoutQueue := pq_run AsyncRequestCompare ops in
  ∃ r, pq_top (pq_push AsyncRequestCompare x q) = Some r ∧
       (r = x ∨ r ∈ q) ∧
       (time r <= time x)%Q ∧
       ∀ y, y ∈ q → (time r <= time y)%Q.
Proof.
  intros q. set (q' := pq_push AsyncRequestCompare x q).
  assert (q' ≡ₚ x :: q) as Hperm by apply pq_push_Permutation.
  assert (is_heap AsyncRequestCompare q') as Hheap.
  { apply pq_push_is_heap; eauto using
      AsyncRequestCompare_trans, AsyncRequestCompare_asym.
    apply pq_run_is_heap; eauto using
      AsyncRequestCompare_trans, AsyncRequestCompare_asym. }
  destruct q' as [|r rest] eqn:Hq'.
  { apply Permutation_length in Hperm. done. }
  exists r. split; [done|].
  assert (∀ y, y ∈ x :: q → (time r <= time y)%Q) as Hmin.
  { intros y Hy. rewrite <-Hperm in Hy.
    apply list_elem_of_lookup in Hy as [k Hk].
    apply AsyncRequestCompare_false.
    eapply (is_heap_top_min AsyncRequestCompare); eauto using
      AsyncRequestCompare_trans, AsyncRequestCompare_asym. }
  split.
  - assert (r ∈ x :: q) as Hr by (rewrite <-Hperm; by left).
    by apply elem_of_cons in Hr.
  - split; [apply Hmin; by left|]. intros y Hy. apply Hmin. by right.
Qed.

(** X5: a request that is not earlier than any request of the queue is
    put at the back of the vector by a push, and the rest of the vector
    stays as it is. *)
Theorem timeout_queue_push_latest (q : TimeoutQueue) (x : AsyncRequest) :
  (∀ y, y ∈ q → (time y <= time x)%Q) →
  pq_push AsyncRequestCompare x q = q ++ [x].
Proof.
  intros Hle. unfold pq_push, push_heap. rewrite length_app. simpl.
  replace (length q + 1) with (S (length q)) by lia. simpl.
  rewrite Nat.sub_0_r.
  destruct (Nat.eqb_spec (length q) 0) as [|Hne]; [done|].
  assert (parent (length q) < length q) as Hp.
  { pose proof (parent_cases (length q) ltac:(lia)). lia. }
  destruct (lookup_lt_is_Some_2 q _ Hp) as [y Hy].
  rewrite lookup_app_l, Hy by done.
  rewrite (list_lookup_middle q [] x (length q) eq_refl).
  assert (AsyncRequestCompare y x = false) as ->; [|done].
  apply AsyncRequestCompare_false, Hle. by eapply list_elem_of_lookup_2.
Qed.

Lemma timeout_queue_push_latest_witness :
  let r (t : Q) := set_time t AsyncRequest_default in
  let q := [r 1%Q; r 3%Q; r 2%Q] in
  (∀ y, y ∈ q → (time y <= time (r 3%Q))%Q) ∧
  pq_push AsyncRequestCompare (r 3%Q) q = q ++ [r 3%Q].
Proof.
  intros r q.
  assert (∀ y, y ∈ q → (time y <= time (r 3%Q))%Q) as H.
  { intros y Hy. unfold q in Hy.
    repeat (apply elem_of_cons in Hy as [->|Hy]; [simpl; lra|]).
    by apply not_elem_of_nil in Hy. }
  split; [exact H|]. exact (timeout_queue_push_latest q (r 3%Q) H).
Defined.

(** ** Emptying the timeout queue *)

Section drain_facts.
Context {A : Type} (comp : A → A → bool).
Hypothesis comp_trans :
  ∀ x y z, comp x y = false → comp y z = false → comp x z = false.
Hypothesis comp_asym : ∀ x y, comp x y = true → comp y x = false.

Lemma pq_drain_spec (fuel : nat) (c : list A) :
  is_heap comp c → length c ≤ fuel →
  pq_drain comp fuel c ≡ₚ c ∧
  StronglySorted (λ a b, comp a b = false) (pq_drain comp fuel c).
Proof.
  revert c. induction fuel as [|fuel IH]; intros c Hheap Hlen; simpl.
  { destruct c; [|simpl in Hlen; lia]. split; [done|constructor]. }
  destruct (pq_top c) as [x|] eqn:Htop.
  2:{ destruct c; [|done]. split; [done|constructor]. }
  pose proof (pq_pop_Permutation comp x c Htop) as Hperm.
  destruct (IH (pq_pop comp c)) as [Hp Hs].
  { by apply pq_pop_is_heap. }
  { rewrite pq_pop_length. lia. }
  split; [by rewrite Hp|].
  constructor; [done|]. apply Forall_forall. intros y Hy.
  rewrite Hp in Hy. apply pq_pop_subseteq in Hy.
  apply list_elem_of_lookup in Hy as [j Hj].
  by eapply (is_heap_top_min comp).
Qed.

End drain_facts.

Lemma StronglySorted_by_time (l : list AsyncRequest) :
  StronglySorted (λ a b, AsyncRequestCompare a b = false) l →
  StronglySorted (λ a b, (time a <= time b)%Q) l.
Proof.
  induction 1 as [|a l Hl IH Hall]; constructor; [done|].
  eapply Forall_impl; [exact Hall|].
  intros b. apply AsyncRequestCompare_false.
Qed.

(** X6: emptying the timeout queue with [top()] and [pop()] returns every
    request of the queue, each as often as it is in it, in the order of
    their times, earliest first. *)
Theorem timeout_queue_drain_sorted (ops : list (pq_op AsyncRequest)) :
  let q : TimeoutQueue := pq_run AsyncRequestCompare ops in
  pq_drain AsyncRequestCompare (length q) q ≡ₚ q ∧
  StronglySorted (λ a b, (time a <= time b)%Q)
    (pq_drain AsyncRequestCompare (length q) q).
Proof.
  intros q.
  destruct (pq_drain_spec AsyncRequestCompare
              AsyncRequestCompare_trans AsyncRequestCompare_asym (length q) q)
    as [Hp Hs]; [|done|].
  { apply pq_run_is_heap; eauto using
      AsyncRequestCompare_trans, AsyncRequestCompare_asym. }
  split; [done|]. by apply StronglySorted_by_time.
Qed.

(** ** The queue holds pointers *)

Section comparator_ext.
Context {A : Type} (comp comp' : A → A → bool).

Lemma agree_on_Permutation (c c' : list A) :
  c ≡ₚ c' → agree_on comp comp' c → agree_on comp comp' c'.
Proof. intros Hp H x y Hx Hy. apply H; by rewrite Hp. Qed.

Lemma top_child_ext (c : list A) (i : nat) :
  agree_on comp comp' c → top_child comp' c i = top_child comp c i.
Proof.
  intros H. unfold top_child.
  destruct (c !! i) as [x|] eqn:Hx; [|simpl; by rewrite Hx].
  assert (∀ k z, c !! k = Some z → z ∈ c) as Hin
    by (intros; by eapply list_elem_of_lookup_2).
  destruct (c !! (2 * i + 1)) as [y|] eqn:Hy.
  - rewrite (H x y) by eauto. destruct (comp x y).
    + rewrite Hy. destruct (c !! (2 * i + 2)) as [z|] eqn:Hz; [|done].
      by rewrite (H y z) by eauto.
    + rewrite Hx. destruct (c !! (2 * i + 2)) as [z|] eqn:Hz; [|done].
      by rewrite (H x z) by eauto.
  - rewrite Hx. destruct (c !! (2 * i + 2)) as [z|] eqn:Hz; [|done].
    by rewrite (H x z) by eauto.
Qed.

Lemma sift_down_ext (fuel i : nat) (c : list A) :
  agree_on comp comp' c → sift_down comp' fuel i c = sift_down comp fuel i c.
Proof.
  revert i c. induction fuel as [|fuel IH]; intros i c H; simpl; [done|].
  rewrite top_child_ext by done. destruct (Nat.eqb _ i); [done|].
  apply IH. eapply agree_on_Permutation; [|exact H].
  symmetry. apply swap_Permutation.
Qed.

Lemma sift_up_ext (fuel i : nat) (c : list A) :
  agree_on comp comp' c → sift_up comp' fuel i c = sift_up comp fuel i c.
Proof.
  revert i c. induction fuel as [|fuel IH]; intros i c H; simpl; [done|].
  destruct (Nat.eqb i 0); [done|].
  destruct (c !! parent i) as [x|] eqn:Hx; [|done].
  destruct (c !! i) as [y|] eqn:Hy; [|done].
  rewrite (H x y) by (by eapply list_elem_of_lookup_2).
  destruct (comp x y); [|done].
  apply IH. eapply agree_on_Permutation; [|exact H].
  symmetry. apply swap_Permutation.
Qed.

Lemma pq_push_ext (x : A) (c : list A) :
  agree_on comp comp' (x :: c) → pq_push comp' x c = pq_push comp x c.
Proof.
  intros H. unfold pq_push, push_heap. apply sift_up_ext.
  eapply agree_on_Permutation; [|exact H]. apply Permutation_cons_append.
Qed.

Lemma pq_pop_ext (c : list A) :
  agree_on comp comp' c → pq_pop comp' c = pq_pop comp c.
Proof.
  intros H. rewrite !pq_pop_eq. apply sift_down_ext.
  intros x y Hx Hy. apply H.
  - apply subseteq_take in Hx. by rewrite swap_Permutation in Hx.
  - apply subseteq_take in Hy. by rewrite swap_Permutation in Hy.
Qed.

Lemma is_heap_agree (c : list A) :
  agree_on comp comp' c → is_heap comp c → is_heap comp' c.
Proof. apply is_heap_ext. Qed.

End comparator_ext.

Lemma ptr_compare_agree mem mem' (c : list ReqPtr) :
  (∀ p, p ∈ c → time (deref mem' p) = time (deref mem p)) →
  agree_on (ptr_compare mem) (ptr_compare mem') c.
Proof.
  intros H x y Hx Hy. unfold ptr_compare, AsyncRequestCompare.
  by rewrite !H.
Qed.

(** X7: the timeout queue holds pointers and its comparator reads nothing
    of a request but [time].  As long as the requests the queue points to
    keep their times, whatever else is written to them ([processed],
    [callbacks]) leaves the vector a heap, and pushes and pops give the
    same vectors as before. *)
Theorem timeout_queue_reads_time_only
    (mem mem' : gmap ReqPtr AsyncRequest) (c : list ReqPtr) (x : ReqPtr) :
  (∀ p, p ∈ x :: c → time (deref mem' p) = time (deref mem p)) →
  (is_heap (ptr_compare mem) c ↔ is_heap (ptr_compare mem') c) ∧
  pq_push (ptr_compare mem') x c = pq_push (ptr_compare mem) x c ∧
  pq_pop (ptr_compare mem') c = pq_pop (ptr_compare mem) c.
Proof.
  intros H.
  assert (∀ p, p ∈ c → time (deref mem' p) = time (deref mem p)) as Hc.
  { intros p Hp. apply H. by right. }
  split; [split|split].
  - by apply is_heap_same_times.
  - apply is_heap_same_times. intros p Hp. symmetry. by apply Hc.
  - by apply pq_push_ext, ptr_compare_agree.
  - by apply pq_pop_ext, ptr_compare_agree.
Qed.

Lemma timeout_queue_reads_time_only_witness :
  let r (t : Q) := set_time t AsyncRequest_default in
  let mem : gmap ReqPtr AsyncRequest := {[ 0 := r 5%Q; 1 := r 3%Q; 2 := r 7%Q ]} in
  let mem' := <[1 := add_callback 9 (set_processed (r 3%Q))]> mem in
  let c := [1; 0] in
  (∀ p, p ∈ 2 :: c → time (deref mem' p) = time (deref mem p)) ∧
  ((is_heap (ptr_compare mem) c ↔ is_heap (ptr_compare mem') c) ∧
   pq_push (ptr_compare mem') 2 c = pq_push (ptr_compare mem) 2 c ∧
   pq_pop (ptr_compare mem') c = pq_pop (ptr_compare mem) c).
Proof.
  intros r mem mem' c.
  assert (∀ p, p ∈ 2 :: c → time (deref mem' p) = time (deref mem p)) as H.
  { intros p Hp. unfold c in Hp.
    repeat (apply elem_of_cons in Hp as [->|Hp]; [vm_compute; reflexivity|]).
    by apply not_elem_of_nil in Hp. }
  split; [exact H|]. exact (timeout_queue_reads_time_only mem mem' c 2 H).
Defined.

(** ** The directory of the cache file *)

(** X8: however often [SetDir] is called, the directory is the one of the
    last call, and neither the path [CacheFile] returns nor the caches nor
    the registry change. *)
Theorem SetDir_last_wins (ds : list string) (m : DNS_Mgr) :
  let m' := foldl (λ m d, SetDir d m) m ds in
  dir m' = default (dir m) (last ds) ∧
  CacheFile m' = CacheFile m ∧
  cache m' = cache m ∧ reg m' = reg m ∧ mode m' = mode m ∧
  did_init m' = did_init m ∧ disk m' = disk m.
Proof.
  revert m. induction ds as [|d ds IH]; intros m; simpl; [done|].
  destruct (IH (SetDir d m)) as (Hd & Hrest). split; [|exact Hrest].
  rewrite Hd, last_cons. simpl. by destruct (last ds).
Qed.

(** ** Callback objects *)

(** X9: a callback class that overrides nothing but [Timeout] takes no
    notice of results: after any sequence of calls its state is what the
    [Timeout] calls alone make of it. *)
Theorem LookupCallback_base_ignores_results {S V : Type} (timeout : S → S)
    (calls : list (CallbackCall V)) (s : S) :
  foldl (deliver (LookupCallback_base timeout)) s calls =
  Nat.iter (length (filter (λ c, is_timeout_call c = true) calls)) timeout s.
Proof.
  revert s. induction calls as [|c calls IH]; intros s; [done|].
  cbn [foldl]. rewrite IH.
  destruct c; try (by rewrite filter_cons_False by done).
  rewrite filter_cons_True by done.
  cbn [length deliver LookupCallback_base cb_Timeout].
  by rewrite Nat.iter_succ_r.
Qed.
